(** * ProfileUtils: a shallow embedding of js/profile-utils.js

    The module is a handful of helpers used by the profile pages: a name
    formatter, an interest-list parser, the construction of the list of
    candidate image URLs, the sequential image probe, the YAML loader, the
    contact list and the loader of HTML partials.

    A JavaScript string is a sequence of 16-bit code units.  It is
    modelled by the [string] that writes each code unit as UTF-8 writes
    its number: one byte for an ASCII character, two or three bytes for
    any other code unit.  Concatenation, comparison, emptiness and
    splitting at ASCII separators are then those of the bytes.  The
    built-ins that depend on the Unicode tables ([toLowerCase],
    [toUpperCase], [trim]) and the printing of numbers are not defined
    here: they are taken as parameters ([builtins]), with the properties of
    the real functions that the proofs use.  JavaScript values that reach
    the helpers (roster data decoded from YAML) are modelled by [value]. *)

From Stdlib Require Import Ascii String.
From stdpp Require Import gmap strings list pretty.

Set Warnings "-register-all".

(** ** JavaScript string primitives *)

Module JS.

(** The ASCII letters and their case mapping *)
Definition is_upper (c : ascii) : bool :=
  let n := N_of_ascii c in (N.leb 65 n && N.leb n 90)%N.

Definition is_lower (c : ascii) : bool :=
  let n := N_of_ascii c in (N.leb 97 n && N.leb n 122)%N.

Definition lower_char (c : ascii) : ascii :=
  if is_upper c then ascii_of_N (N_of_ascii c + 32) else c.

Definition upper_char (c : ascii) : ascii :=
  if is_lower c then ascii_of_N (N_of_ascii c - 32) else c.

Fixpoint map_chars (f : ascii → ascii) (s : string) : string :=
  match s with
  | "" => ""
  | String c s' => String (f c) (map_chars f s')
  end.

(** What [s.toLowerCase()] and [s.toUpperCase()] give on a string of
    ASCII characters *)
Definition ascii_toLowerCase : string → string := map_chars lower_char.
Definition ascii_toUpperCase : string → string := map_chars upper_char.

(** A string of ASCII characters only *)
Definition is_ascii_char (c : ascii) : bool := (N_of_ascii c <? 128)%N.

Fixpoint is_ascii (s : string) : bool :=
  match s with
  | "" => true
  | String c s' => is_ascii_char c && is_ascii s'
  end.

(** The number of bytes that write the code unit starting with byte [c] *)
Definition unit_width (c : ascii) : nat :=
  let n := N_of_ascii c in
  if (n <? 128)%N then 1 else if (n <? 224)%N then 2 else 3.

Fixpoint take_bytes (n : nat) (s : string) : string :=
  match n, s with
  | S n', String c s' => String c (take_bytes n' s')
  | _, _ => ""
  end.

Fixpoint drop_bytes (n : nat) (s : string) : string :=
  match n, s with
  | S n', String _ s' => drop_bytes n' s'
  | _, _ => s
  end.

(** [s.charAt(0)]: the first code unit as a string, or the empty string *)
Definition charAt0 (s : string) : string :=
  match s with
  | "" => ""
  | String c _ => take_bytes (unit_width c) s
  end.

(** [s.slice(1)]: everything after the first code unit *)
Definition slice1 (s : string) : string :=
  match s with
  | "" => ""
  | String c _ => drop_bytes (unit_width c) s
  end.

(** [Boolean(s)] on a string: only the empty string is falsy *)
Definition truthy (s : string) : bool :=
  match s with
  | "" => false
  | String _ _ => true
  end.

(** [s.split(sep)] for a separator matching exactly one ASCII character
    (a one-character string, or a character class such as [/[,;|\n]/]):
    the pieces between consecutive separators, empty pieces included;
    a string without separator is returned whole. *)
Fixpoint split (is_sep : ascii → bool) (s : string) : list string :=
  match s with
  | "" => [""]
  | String c s' =>
      if is_sep c then "" :: split is_sep s'
      else match split is_sep s' with
           | [] => [String c ""]
           | piece :: pieces => String c piece :: pieces
           end
  end.

(** [a.join(sep)] on an array of strings *)
Fixpoint join (sep : string) (a : list string) : string :=
  match a with
  | [] => ""
  | [x] => x
  | x :: a' => x +:+ sep +:+ join sep a'
  end.

(** What [s.trim()] gives on a string of ASCII characters: the ASCII
    white space (tab, line feed, vertical tab, form feed, carriage return,
    space) removed from both ends *)
Fixpoint ascii_trimStart (s : string) : string :=
  match s with
  | "" => ""
  | String c s' => if Ascii.is_space c then ascii_trimStart s' else s
  end.

Fixpoint ascii_trimEnd (s : string) : string :=
  match s with
  | "" => ""
  | String c s' =>
      match ascii_trimEnd s' with
      | "" => if Ascii.is_space c then "" else String c ""
      | t => String c t
      end
  end.

Definition ascii_trim (s : string) : string := ascii_trimEnd (ascii_trimStart s).

Definition char_is (c : ascii) : ascii → bool := λ x, bool_decide (x = c).

End JS.

(** ** Predicates on strings *)

Module Str.

(** Every code unit of the string satisfies [p]. *)
Fixpoint all_chars (p : ascii → bool) (s : string) : bool :=
  match s with
  | "" => true
  | String c s' => p c && all_chars p s'
  end.

Fixpoint count_chars (p : ascii → bool) (s : string) : nat :=
  match s with
  | "" => 0
  | String c s' => (if p c then 1 else 0) + count_chars p s'
  end.

(** The pieces put back together, with a separator between each piece
    and the next *)
Fixpoint weave (pieces : list string) (seps : list ascii) : string :=
  match pieces, seps with
  | piece :: pieces', c :: seps' => piece +:+ String c (weave pieces' seps')
  | piece :: _, [] => piece
  | [], _ => ""
  end.

(** White space at the two ends of a string *)
Definition head_space (s : string) : bool :=
  match s with
  | "" => false
  | String c _ => Ascii.is_space c
  end.

Fixpoint last_space (s : string) : bool :=
  match s with
  | "" => false
  | String c s' =>
      match s' with
      | "" => Ascii.is_space c
      | String _ _ => last_space s'
      end
  end.

End Str.

(** ** The built-ins taken as parameters *)

(** [toLowerCase], [toUpperCase] and [trim] follow the Unicode tables, and
    [String(n)] the printing of numbers.  They are parameters here, with
    these properties of the real functions: on a string of ASCII
    characters they are the ASCII functions of [JS]; [trim] removes from
    the two ends a part that is white space only (a part that trims to
    the empty string) and leaves a string that starts and ends with no
    ASCII white space and that trimming does not change; a whole number
    below 2^53 in absolute value is printed in decimal. *)
Record builtins := {
  toLowerCase : string → string;
  toUpperCase : string → string;
  trim : string → string;
  Number_toString : Z → string;
  toLowerCase_ascii :
    ∀ s, JS.is_ascii s = true → toLowerCase s = JS.ascii_toLowerCase s;
  toUpperCase_ascii :
    ∀ s, JS.is_ascii s = true → toUpperCase s = JS.ascii_toUpperCase s;
  trim_ascii :
    ∀ s, JS.is_ascii s = true → trim s = JS.ascii_trim s;
  trim_split :
    ∀ s, ∃ a b, s = a +:+ trim s +:+ b ∧ trim a = "" ∧ trim b = "";
  trim_trim : ∀ s, trim (trim s) = trim s;
  trim_ends :
    ∀ s, Str.head_space (trim s) = false ∧ Str.last_space (trim s) = false;
  Number_toString_decimal :
    ∀ n, (Z.abs n < 2 ^ 53)%Z → Number_toString n = pretty n
}.

(** ** JavaScript values *)

(** The values a roster decoded from YAML can hold.  Numbers are the
    whole numbers and [NaN]; objects are plain mappings that do not
    redefine [toString] or [valueOf]. *)
Inductive value :=
  | VUndefined
  | VNull
  | VBool (b : bool)
  | VNum (n : Z)
  | VNaN
  | VStr (s : string)
  | VArr (items : list value)
  | VObj (fields : list (string * value)).

(** [Boolean(v)], the test behind [!v], [v || w] and [if (v)] *)
Definition ToBoolean (v : value) : bool :=
  match v with
  | VUndefined | VNull | VNaN => false
  | VBool b => b
  | VNum n => negb (n =? 0)%Z
  | VStr s => JS.truthy s
  | VArr _ | VObj _ => true
  end.

(** [String(v)]; an array prints its elements joined by commas, with
    [null] and [undefined] elements printed as nothing *)
Fixpoint ToString (B : builtins) (v : value) : string :=
  match v with
  | VUndefined => "undefined"
  | VNull => "null"
  | VBool b => if b then "true" else "false"
  | VNum n => Number_toString B n
  | VNaN => "NaN"
  | VStr s => s
  | VArr items =>
      JS.join ","
        ((λ x, match x with
               | VUndefined | VNull => ""
               | _ => ToString B x
               end) <$> items)
  | VObj _ => "[object Object]"
  end.

(** [v || w] *)
Definition js_or (v w : value) : value := if ToBoolean v then v else w.

(** The empty mapping [{}] *)
Definition empty_object : value := VObj [].

(** A promise, as its state *)
Inductive promise (A : Type) :=
  | Pending
  | Fulfilled (v : A)
  | Rejected (reason : string).
Arguments Pending {A}.
Arguments Fulfilled {A} v.
Arguments Rejected {A} reason.

(** ** formatNameFromSlug *)

(** The arrow function mapped over the tokens. *)
Definition format_word (B : builtins) (word : string) : string :=
  if negb (JS.truthy word) then ""
  else
    let lower := toLowerCase B word in
    toUpperCase B (JS.charAt0 lower) +:+ JS.slice1 lower.

Definition formatNameFromSlug (B : builtins) (str : string) : string :=
  if negb (JS.truthy str) then ""
  else JS.join " " (format_word B <$> JS.split (JS.char_is "-") str).

(** ** imageCandidates *)

Definition DEFAULT_IMG : string := "/staff/images/cta-default.jpg".

(** A roster entry; [photo] is the only field [imageCandidates] reads
    ([None] when the entry has none). *)
Record person := { photo : option string }.

(** A [Set] of strings keeps its elements in insertion order, which is
    the order [Array.from] reads them back in. *)
Module JSSet.
Definition t := list string.
Definition empty : t := [].
Definition has (x : string) (s : t) : bool := bool_decide (x ∈ s).
Definition add (x : string) (s : t) : t := if has x s then s else s ++ [x].
(** [new Set(iterable)] *)
Definition of_array (a : list string) : t := foldl (λ s x, add x s) empty a.
(** [Array.from(set)] *)
Definition to_array (s : t) : list string := s.
End JSSet.

(** A parameter with a default value: [None] is an omitted argument. *)
Definition or_default {A} (d : A) (arg : option A) : A := default d arg.

Definition exts : list string := [".jpg"; ".png"; ".jpeg"].

(** The array [candidates] after steps 1 to 3; [push] appends. *)
Definition candidates_before_default (slug : string) (p : option person)
    (years : list string) (imgRoster : string) (imgYears : option string)
    : list string :=
  let candidates := [] in
  (* 1) explicit photo from roster *)
  let candidates :=
    match p with
    | Some p' =>
        match photo p' with
        | Some ph => if JS.truthy ph then candidates ++ [ph] else candidates
        | None => candidates
        end
    | None => candidates
    end in
  (* 2) canonical roster folder *)
  let candidates :=
    foldl (λ c ext, c ++ [imgRoster +:+ "/" +:+ slug +:+ ext]) candidates exts in
  (* 3) year folders *)
  match imgYears with
  | Some dir =>
      if JS.truthy dir && bool_decide (0 < length years) then
        foldl (λ c year,
                 foldl (λ c' ext,
                          c' ++ [dir +:+ "/" +:+ year +:+ "/" +:+ slug +:+ ext])
                       c exts)
              candidates years
      else candidates
  | None => candidates
  end.

Definition imageCandidates (slug : string) (p : option person)
    (years : option (list string)) (imgRoster : string)
    (imgYears : option string) (defaultImg : option string) : list string :=
  let years := or_default [] years in
  let defaultImg := or_default DEFAULT_IMG defaultImg in
  let candidates := candidates_before_default slug p years imgRoster imgYears in
  (* 4) default image *)
  let candidates := candidates ++ [defaultImg] in
  JSSet.to_array (JSSet.of_array (filter (λ u, JS.truthy u) candidates)).

(** ** firstReachableImage *)

(** What the page does to the image element and what the browser
    answers, in order. *)
Inductive probe_event :=
  | Requested (url : string)   (* img.src = url *)
  | Loaded (url : string)      (* the load event for url *)
  | Failed (url : string).     (* the error event for url *)

(** The variables captured by the promise executor: the counter, the one
    image element with its two handlers, and the promise itself. *)
Record probe_state := {
  index : nat;
  loading : option string;      (* the url whose load or error is awaited *)
  img_onload : option string;   (* () => resolve(url), by the url it captured *)
  img_onerror : bool;           (* whether tryNext is installed *)
  result : promise string;
  history : list probe_event
}.

(** [resolve(v)]: settles a pending promise, and is ignored afterwards *)
Definition resolve (v : string) (σ : probe_state) : probe_state :=
  match result σ with
  | Pending =>
      {| index := index σ; loading := loading σ; img_onload := img_onload σ;
         img_onerror := img_onerror σ; result := Fulfilled v;
         history := history σ |}
  | _ => σ
  end.

(** [urls[i]], [undefined] out of range *)
Definition array_get (urls : list string) (i : Z) : option string :=
  if (i <? 0)%Z then None else urls !! Z.to_nat i.

(** [u || DEFAULT_IMG] for [u] a string or [undefined] *)
Definition or_default_img (u : option string) : string :=
  match u with
  | Some s => if JS.truthy s then s else DEFAULT_IMG
  | None => DEFAULT_IMG
  end.

Definition tryNext (urls : list string) (σ : probe_state) : probe_state :=
  if bool_decide (length urls ≤ index σ) then
    resolve (or_default_img (array_get urls (Z.of_nat (length urls) - 1))) σ
  else
    match urls !! index σ with
    | Some url =>
        {| index := S (index σ); loading := Some url; img_onload := Some url;
           img_onerror := true; result := result σ;
           history := history σ ++ [Requested url] |}
    | None => σ
    end.

(** The browser settles the load in flight: it fires [load] when the
    image is reachable and [error] otherwise, and the handler installed
    for that event runs. *)
Definition deliver (reachable : string → bool) (urls : list string)
    (url : string) (σ : probe_state) : probe_state :=
  if reachable url then
    let σ' := {| index := index σ; loading := None; img_onload := img_onload σ;
                 img_onerror := img_onerror σ; result := result σ;
                 history := history σ ++ [Loaded url] |} in
    match img_onload σ' with
    | Some captured => resolve captured σ'
    | None => σ'
    end
  else
    let σ' := {| index := index σ; loading := None; img_onload := img_onload σ;
                 img_onerror := img_onerror σ; result := result σ;
                 history := history σ ++ [Failed url] |} in
    if img_onerror σ' then tryNext urls σ' else σ'.

(** The event loop, for at most [fuel] events; it stops as soon as no
    load is in flight. *)
Fixpoint event_loop (reachable : string → bool) (urls : list string)
    (fuel : nat) (σ : probe_state) : probe_state :=
  match fuel with
  | 0 => σ
  | S fuel' =>
      match loading σ with
      | None => σ
      | Some url => event_loop reachable urls fuel' (deliver reachable urls url σ)
      end
  end.

(** The executor: [index = 0], a fresh image, then [tryNext()]. *)
Definition executor_start : probe_state :=
  {| index := 0; loading := None; img_onload := None; img_onerror := false;
     result := Pending; history := [] |}.

Definition firstReachableImage (reachable : string → bool)
    (urls : list string) (fuel : nat) : probe_state :=
  event_loop reachable urls fuel (tryNext urls executor_start).

(** ** parseInterests *)

(** The character class [/[,;|\n]/] *)
Definition is_delim (c : ascii) : bool :=
  match c with
  | ","%char | ";"%char | "|"%char | "010"%char => true
  | _ => false
  end.

(** [a.filter(cb)] for a callback that reads and updates a state of its
    own: the elements are visited in order and the state is threaded
    through the calls. *)
Fixpoint Array_filter {S : Type} (cb : string → S → bool * S)
    (a : list string) (st : S) : list string * S :=
  match a with
  | [] => ([], st)
  | x :: a' =>
      let '(keep, st') := cb x st in
      let '(kept, st'') := Array_filter cb a' st' in
      (if keep then x :: kept else kept, st'')
  end.

(** The callback of the de-duplicating filter; [seen] is the [Set]. *)
Definition unseen (B : builtins) (item : string) (seen : gset string)
    : bool * gset string :=
  let key := toLowerCase B item in
  if bool_decide (key ∈ seen) then (false, seen)
  else (true, {[key]} ∪ seen).

Definition parseInterests (B : builtins) (v : value) : list string :=
  if negb (ToBoolean v) then []
  else
    let items :=
      match v with
      | VArr a => filter (λ s, JS.truthy s) ((λ s, trim B (ToString B s)) <$> a)
      | _ =>
          filter (λ s, JS.truthy s)
                 (trim B <$> JS.split is_delim (ToString B v))
      end in
    (Array_filter (unseen B) items ∅).1.

(** ** fetchYAML *)

(** The response of [fetch]: the [ok] flag, the status text, and what
    reading the body gives (an error message when the read fails). *)
Record Response := {
  ok : bool;
  statusText : string;
  body : string + string
}.

(** What the function relies on from outside: [fetch] (rejecting with an
    error, or resolving with a response) and [jsyaml.load] (throwing, or
    returning the decoded value).  Errors are carried by their message. *)
Record environment := {
  fetch : string → string + Response;
  jsyaml_load : string → string + value
}.

(** A line written by [console.error]: the label and the error logged *)
Definition console := list (string * string).

(** Computations that may throw and may write to the console *)
Definition M (A : Type) : Type := console → (string + A) * console.

Global Instance M_ret : MRet M := λ A x c, (inr x, c).
Global Instance M_bind : MBind M := λ A B k m c,
  match m c with
  | (inl e, c') => (inl e, c')
  | (inr x, c') => k x c'
  end.
Definition throw {A} (e : string) : M A := λ c, (inl e, c).
(** [await p] for a promise already settled: its value, or its reason
    thrown; the same for a call that returns or throws *)
Definition settle {A} (r : string + A) : M A :=
  match r with
  | inl e => throw e
  | inr x => mret x
  end.
Definition try_catch {A} (m : M A) (handler : string → M A) : M A :=
  λ c, match m c with
       | (inl e, c') => handler e c'
       | (inr x, c') => (inr x, c')
       end.
Definition console_error (label : string) (e : string) : M unit :=
  λ c, (inr tt, c ++ [(label, e)]).

(** An async function: its promise is fulfilled by the value returned
    and rejected by an error that escapes. *)
Definition async {A} (m : M A) (c : console) : promise A * console :=
  match m c with
  | (inl e, c') => (Rejected e, c')
  | (inr x, c') => (Fulfilled x, c')
  end.

Definition fetchYAML_body (env : environment) (path : string) : M value :=
  try_catch
    (response ← settle (fetch env path);
     (if negb (ok response) then
        throw ("Failed to fetch " +:+ path +:+ ": " +:+ statusText response)
      else mret ());;
     text ← settle (body response);
     doc ← settle (jsyaml_load env text);
     mret (js_or doc empty_object))
    (λ error,
       console_error "Error fetching YAML:" error;;
       mret empty_object).

Definition fetchYAML (env : environment) (path : string) (c : console)
    : promise value * console :=
  async (fetchYAML_body env path) c.

(** ** createExternalLink and renderContactInfo *)

(** The DOM nodes the module builds: elements with their attributes and
    children, and text nodes. *)
Inductive element :=
  | Element (tag : string) (attrs : gmap string string) (children : list node)
with node :=
  | TextNode (data : string)
  | ElementNode (e : element).

Definition tag_of (e : element) : string :=
  match e with Element t _ _ => t end.
Definition attrs_of (e : element) : gmap string string :=
  match e with Element _ a _ => a end.
Definition children_of (e : element) : list node :=
  match e with Element _ _ c => c end.

(** [document.createElement(tag)] *)
Definition createElement (tag : string) : element := Element tag ∅ [].

(** [el.setAttribute(name, v)], and the assignments [el.href = v],
    [el.target = v], [el.rel = v], which set the attribute of that name *)
Definition setAttribute (name v : string) (e : element) : element :=
  match e with
  | Element t a c => Element t (<[name := v]> a) c
  end.

(** [el.textContent = v]: the children are replaced by one text node,
    or by nothing when the text is empty; [null] and [undefined] count
    as the empty text. *)
Definition set_textContent (B : builtins) (v : value) (e : element) : element :=
  match e with
  | Element t a _ =>
      let text := match v with
                  | VNull | VUndefined => ""
                  | _ => ToString B v
                  end in
      Element t a (if JS.truthy text then [TextNode text] else [])
  end.

(** [el.innerHTML = ''] *)
Definition clear_innerHTML (e : element) : element :=
  match e with
  | Element t a _ => Element t a []
  end.

(** [parent.appendChild(child)] for a child that was just created *)
Definition appendChild (child parent : element) : element :=
  match parent with
  | Element t a c => Element t a (c ++ [ElementNode child])
  end.

Definition createExternalLink (B : builtins) (href text : value) : element :=
  let anchor := createElement "a" in
  let anchor := setAttribute "href" (ToString B href) anchor in
  let anchor := setAttribute "target" "_blank" anchor in
  let anchor := setAttribute "rel" "noopener noreferrer" anchor in
  let anchor := set_textContent B text anchor in
  setAttribute "aria-label" (ToString B text +:+ " (opens in new tab)") anchor.

(** The fields of a roster entry that [renderContactInfo] reads;
    [VUndefined] for a field the entry does not have. *)
Record contact := {
  email : value;
  phone : value;
  lanl : value;
  lanl_profile : value;
  scholar : value;
  ads : value
}.

(** The error raised by reading a property of [null] or [undefined] *)
Definition TypeError_no_person : string :=
  "TypeError: cannot read properties of null or undefined".

(** A list item holding one external link *)
Definition link_item (B : builtins) (href text : value) : element :=
  let li := createElement "li" in
  appendChild (createExternalLink B href text) li.

(** The list element is updated in place: the second component is the
    element as the call leaves it, also when the call throws ([None]
    stands for a [person] that is [null] or [undefined]). *)
Definition renderContactInfo (B : builtins) (person : option contact)
    (listElement : element)
    : (string + unit) * element :=
  let listElement := clear_innerHTML listElement in
  match person with
  | None => (inl TypeError_no_person, listElement)
  | Some person =>
      let listElement :=
        if ToBoolean (email person) then
          appendChild
            (link_item B (VStr ("mailto:" +:+ ToString B (email person))) (email person))
            listElement
        else listElement in
      let listElement :=
        if ToBoolean (phone person) then
          let li := createElement "li" in
          let li := set_textContent B (phone person) li in
          appendChild li listElement
        else listElement in
      (* Check both 'lanl' and 'lanl_profile' for compatibility *)
      let lanlUrl := js_or (lanl person) (lanl_profile person) in
      let listElement :=
        if ToBoolean lanlUrl then
          appendChild (link_item B lanlUrl (VStr "LANL Profile")) listElement
        else listElement in
      let listElement :=
        if ToBoolean (scholar person) then
          appendChild (link_item B (scholar person) (VStr "Google Scholar")) listElement
        else listElement in
      let listElement :=
        if ToBoolean (ads person) then
          appendChild (link_item B (ads person) (VStr "NASA ADS")) listElement
        else listElement in
      (inr tt, listElement)
  end.

(** ** loadPartial *)

(** The document as [loadPartial] uses it.  [D] is the state of the
    document and [E] its elements; [querySelector] is
    [document.querySelector], evaluated against the document as it stands:
    it throws on a selector it cannot parse, and returns the first
    matching element or [null]; [set_innerHTML] is the assignment
    [element.innerHTML = html], with whatever it does to the document. *)
Record dom (D E : Type) := {
  querySelector : D → string → string + option E;
  set_innerHTML : E → string → D → D
}.
Arguments querySelector {D E} _ _ _.
Arguments set_innerHTML {D E} _ _ _ _.

(** The page: the console and the document *)
Record page (D : Type) := {
  page_console : console;
  page_document : D
}.
Arguments page_console {D} _.
Arguments page_document {D} _.

(** Computations that may throw, write to the console and update the
    document *)
Definition DM (D A : Type) : Type := page D → (string + A) * page D.

Global Instance DM_ret {D} : MRet (DM D) := λ A x pg, (inr x, pg).
Global Instance DM_bind {D} : MBind (DM D) := λ A B k m pg,
  match m pg with
  | (inl e, pg') => (inl e, pg')
  | (inr x, pg') => k x pg'
  end.
Definition dm_throw {D A} (e : string) : DM D A := λ pg, (inl e, pg).
Definition dm_settle {D A} (r : string + A) : DM D A :=
  match r with
  | inl e => dm_throw e
  | inr x => mret x
  end.
Definition dm_try_catch {D A} (m : DM D A) (handler : string → DM D A) : DM D A :=
  λ pg, match m pg with
        | (inl e, pg') => handler e pg'
        | (inr x, pg') => (inr x, pg')
        end.
Definition dm_console_error {D} (label : string) (e : string) : DM D unit :=
  λ pg, (inr tt, {| page_console := page_console pg ++ [(label, e)];
                    page_document := page_document pg |}).
(** [document.querySelector(selector)] *)
Definition dm_querySelector {D E} (doc : dom D E) (selector : string)
    : DM D (option E) :=
  λ pg, match querySelector doc (page_document pg) selector with
        | inl e => (inl e, pg)
        | inr found => (inr found, pg)
        end.
(** [element.innerHTML = html] *)
Definition dm_set_innerHTML {D E} (doc : dom D E) (el : E) (html : string)
    : DM D unit :=
  λ pg, (inr tt, {| page_console := page_console pg;
                    page_document := set_innerHTML doc el html (page_document pg) |}).
Definition dm_async {D A} (m : DM D A) (pg : page D) : promise A * page D :=
  match m pg with
  | (inl e, pg') => (Rejected e, pg')
  | (inr x, pg') => (Fulfilled x, pg')
  end.

Definition loadPartial_body {D E} (env : environment) (doc : dom D E)
    (selector url : string) : DM D unit :=
  dm_try_catch
    (response ← dm_settle (fetch env url);
     (if negb (ok response) then
        dm_throw ("Failed to load " +:+ url +:+ ": " +:+ statusText response)
      else mret ());;
     html ← dm_settle (body response);
     element ← dm_querySelector doc selector;
     match element with
     | Some el => dm_set_innerHTML doc el html
     | None => mret ()
     end)
    (λ error, dm_console_error "Error loading partial:" error).

Definition loadPartial {D E} (env : environment) (doc : dom D E)
    (selector url : string) (pg : page D) : promise unit * page D :=
  dm_async (loadPartial_body env doc selector url) pg.

(** * Vocabulary of the statements *)

(** Title case of a word of ASCII characters, from the spec's words: the
    first letter in upper case, the others in lower case. *)
Definition title_case (word : string) : string :=
  match word with
  | "" => ""
  | String c rest => String (JS.upper_char c) (JS.ascii_toLowerCase rest)
  end.

(** De-duplication from the spec's words: of the elements that have the
    same key, the first one is kept, as it is written and at its place. *)
Section first_by.
Context {K : Type} `{EqDecision K} (key : string → K).

Fixpoint first_by (items : list string) : list string :=
  match items with
  | [] => []
  | x :: rest => x :: filter (λ y, key y ≠ key x) (first_by rest)
  end.

End first_by.

(** Case-insensitive de-duplication *)
Definition first_seen (B : builtins) : list string → list string :=
  first_by (toLowerCase B).

(** De-duplication of equal strings *)
Definition first_occurrences : list string → list string := first_by id.

(** The candidates of each kind, in the order they are generated *)
Definition photo_candidates (p : option person) : list string :=
  match p with
  | Some {| photo := Some ph |} => if JS.truthy ph then [ph] else []
  | _ => []
  end.

Definition roster_candidates (imgRoster slug : string) : list string :=
  (λ ext, imgRoster +:+ "/" +:+ slug +:+ ext) <$> exts.

Definition year_candidates (dir : string) (years : list string) (slug : string)
    : list string :=
  years ≫= (λ year, (λ ext, dir +:+ "/" +:+ year +:+ "/" +:+ slug +:+ ext) <$> exts).

(** The sequential probe over a list of candidates: what is asked of the
    browser and what it answers, up to the first candidate that loads. *)
Fixpoint probe_history (reachable : string → bool) (urls : list string)
    : list probe_event :=
  match urls with
  | [] => []
  | u :: rest =>
      if reachable u then [Requested u; Loaded u]
      else Requested u :: Failed u :: probe_history reachable rest
  end.

(** How many candidates are requested *)
Fixpoint requested (reachable : string → bool) (urls : list string) : nat :=
  match urls with
  | [] => 0
  | u :: rest => if reachable u then 1 else S (requested reachable rest)
  end.

Fixpoint first_reachable (reachable : string → bool) (urls : list string)
    : option string :=
  match urls with
  | [] => None
  | u :: rest => if reachable u then Some u else first_reachable reachable rest
  end.

(** The ways the fetch of a roster fails, each with the error it raises:
    the request is rejected, the response is not ok, the body cannot be
    read, or the text is not valid YAML. *)
Inductive fetch_failure (env : environment) (path : string) : string → Prop :=
  | request_rejected e :
      fetch env path = inl e → fetch_failure env path e
  | response_not_ok r :
      fetch env path = inr r → ok r = false →
      fetch_failure env path
        ("Failed to fetch " +:+ path +:+ ": " +:+ statusText r)
  | body_unreadable r e :
      fetch env path = inr r → ok r = true → body r = inl e →
      fetch_failure env path e
  | yaml_invalid r text e :
      fetch env path = inr r → ok r = true → body r = inr text →
      jsyaml_load env text = inl e →
      fetch_failure env path e.

(** The fetch succeeds and the text decodes to [doc]. *)
Definition fetch_decodes (env : environment) (path : string) (doc : value) : Prop :=
  ∃ r text, fetch env path = inr r ∧ ok r = true ∧ body r = inr text
            ∧ jsyaml_load env text = inr doc.

(** The display name read letter by letter: a hyphen gives a space, the
    letter that starts a word is put in upper case and every other letter
    in lower case. *)
Fixpoint name_letters (word_start : bool) (s : string) : string :=
  match s with
  | "" => ""
  | String c s' =>
      if JS.char_is "-" c then String " " (name_letters true s')
      else String (if word_start then JS.upper_char c else JS.lower_char c)
                  (name_letters false s')
  end.

(** The URLs requested, in the order of the requests *)
Definition requests (h : list probe_event) : list string :=
  h ≫= (λ ev, match ev with Requested url => [url] | _ => [] end).

(** The items of a contact list, field by field *)
Definition contact_items (B : builtins) (person : contact) : list element :=
  (if ToBoolean (email person)
   then [link_item B (VStr ("mailto:" +:+ ToString B (email person))) (email person)]
   else [])
  ++ (if ToBoolean (phone person)
      then [set_textContent B (phone person) (createElement "li")]
      else [])
  ++ (if ToBoolean (js_or (lanl person) (lanl_profile person))
      then [link_item B (js_or (lanl person) (lanl_profile person)) (VStr "LANL Profile")]
      else [])
  ++ (if ToBoolean (scholar person)
      then [link_item B (scholar person) (VStr "Google Scholar")]
      else [])
  ++ (if ToBoolean (ads person)
      then [link_item B (ads person) (VStr "NASA ADS")]
      else []).

(** A link that opens in a new tab without handing the page over to the
    target, and that says so to assistive technology *)
Definition safe_link (a : element) : Prop :=
  tag_of a = "a"
  ∧ is_Some (attrs_of a !! "href")
  ∧ attrs_of a !! "target" = Some "_blank"
  ∧ attrs_of a !! "rel" = Some "noopener noreferrer"
  ∧ ∃ label, attrs_of a !! "aria-label" = Some (label +:+ " (opens in new tab)").

(** A list item without attributes that holds one safe link, or text only *)
Definition contact_item (n : node) : Prop :=
  ∃ content, n = ElementNode (Element "li" ∅ content)
             ∧ ((∃ a, content = [ElementNode a] ∧ safe_link a)
                ∨ Forall (λ c, ∃ text, c = TextNode text) content).

(** The ways loading a partial fails on a given document, each with the
    error it raises: the request is rejected, the response is not ok, the
    body cannot be read, or the selector cannot be parsed. *)
Inductive partial_failure {D E} (env : environment) (doc : dom D E)
    (selector url : string) (d : D) : string → Prop :=
  | partial_rejected e :
      fetch env url = inl e → partial_failure env doc selector url d e
  | partial_not_ok r :
      fetch env url = inr r → ok r = false →
      partial_failure env doc selector url d
        ("Failed to load " +:+ url +:+ ": " +:+ statusText r)
  | partial_unreadable r e :
      fetch env url = inr r → ok r = true → body r = inl e →
      partial_failure env doc selector url d e
  | partial_bad_selector r html e :
      fetch env url = inr r → ok r = true → body r = inr html →
      querySelector doc d selector = inl e →
      partial_failure env doc selector url d e.

(** The partial is fetched as [html] and the selector finds [target]. *)
Definition partial_arrives {D E} (env : environment) (doc : dom D E)
    (selector url : string) (d : D) (html : string) (target : option E) : Prop :=
  ∃ r, fetch env url = inr r ∧ ok r = true ∧ body r = inr html
       ∧ querySelector doc d selector = inr target.

(** A document for the sample runs: the markup last assigned to each
    element, with a selector that finds element 0 whatever the markup. *)
Definition flat_document : dom (gmap nat string) nat :=
  {| querySelector := λ _ _, inr (Some 0);
     set_innerHTML := λ el html d, <[el := html]> d |}.

(** * Properties *)

(** ** The string primitives *)

Module JSFacts.
Import JS Str.

Lemma app_cons (c : ascii) (s t : string) :
  String c s +:+ t = String c (s +:+ t).
Proof. done. Qed.

Lemma app_empty_l (s : string) : "" +:+ s = s.
Proof. done. Qed.

Lemma app_empty_r (s : string) : s +:+ "" = s.
Proof. induction s as [|c s IH]; [done|]. by rewrite app_cons, IH. Qed.

Lemma truthy_true (s : string) : truthy s = true ↔ s ≠ "".
Proof. destruct s; naive_solver. Qed.

Lemma truthy_false (s : string) : truthy s = false ↔ s = "".
Proof. destruct s; naive_solver. Qed.

Lemma char_is_true (c x : ascii) : char_is c x = true ↔ x = c.
Proof. unfold char_is. by rewrite bool_decide_eq_true. Qed.

Lemma split_not_nil (f : ascii → bool) (s : string) : split f s ≠ [].
Proof.
  induction s as [|c s IH]; cbn; [done|].
  destruct (f c); [done|]. by destruct (split f s).
Qed.

Lemma join_cons (sep x y : string) (a : list string) :
  join sep (x :: y :: a) = x +:+ sep +:+ join sep (y :: a).
Proof. done. Qed.

(** Splitting loses nothing: joining the pieces with the separator gives
    the string back. *)
Lemma join_split (c : ascii) (s : string) :
  join (String c "") (split (char_is c) s) = s.
Proof.
  induction s as [|a s IH]; cbn; [done|].
  pose proof (split_not_nil (char_is c) s) as Hne.
  destruct (char_is c a) eqn:Ha.
  - apply char_is_true in Ha as ->.
    destruct (split (char_is c) s) as [|p ps]; [done|].
    rewrite join_cons, IH. done.
  - destruct (split (char_is c) s) as [|p ps]; [done|].
    destruct ps as [|q ps]; cbn in *; by rewrite <- IH.
Qed.

(** No piece contains a separator. *)
Lemma split_pieces (f : ascii → bool) (s : string) :
  Forall (λ piece, all_chars (λ c, negb (f c)) piece = true) (split f s).
Proof.
  induction s as [|a s IH]; cbn; [by repeat constructor|].
  pose proof (split_not_nil f s) as Hne.
  destruct (f a) eqn:Ha; [by constructor|].
  destruct (split f s) as [|p ps]; [done|].
  inversion IH as [|?? Hp Hps]; subst.
  constructor; [|done]. cbn. by rewrite Ha, Hp.
Qed.

(** One more piece than there are separators. *)
Lemma split_length (f : ascii → bool) (s : string) :
  length (split f s) = S (count_chars f s).
Proof.
  induction s as [|a s IH]; cbn; [done|].
  pose proof (split_not_nil f s) as Hne.
  destruct (f a); cbn; [by rewrite IH|].
  by destruct (split f s).
Qed.

(** Splitting loses nothing: the pieces, woven with the separators that
    were found between them, are the string. *)
Lemma split_weave (f : ascii → bool) (s : string) :
  ∃ seps, Forall (λ c, f c = true) seps
          ∧ length (split f s) = S (length seps)
          ∧ weave (split f s) seps = s.
Proof.
  induction s as [|a s (seps & Hseps & Hlen & Hs)]; [by exists []|].
  cbn [split]. destruct (f a) eqn:Ha.
  - exists (a :: seps). split_and!; [by constructor|by cbn; rewrite Hlen|].
    cbn [weave]. by rewrite app_empty_l, Hs.
  - destruct (split f s) as [|p ps]; [done|].
    exists seps. split_and!; [done..|].
    destruct seps as [|c cs]; cbn [weave] in *; [by rewrite Hs|].
    by rewrite app_cons, Hs.
Qed.

Lemma upper_lower_char (c : ascii) : upper_char (lower_char c) = upper_char c.
Proof. by destruct c as [[] [] [] [] [] [] [] []]. Qed.

Lemma trimStart_split (s : string) :
  ∃ a, s = a +:+ ascii_trimStart s ∧ all_chars Ascii.is_space a = true.
Proof.
  induction s as [|c s (a & Hs & Ha)]; [by exists ""|].
  cbn [ascii_trimStart]. destruct (Ascii.is_space c) eqn:Hc.
  - exists (String c a). rewrite app_cons, <- Hs. cbn. by rewrite Hc, Ha.
  - by exists "".
Qed.

Lemma trimStart_head (s : string) : head_space (ascii_trimStart s) = false.
Proof.
  induction s as [|c s IH]; [done|].
  cbn [ascii_trimStart]. by destruct (Ascii.is_space c) eqn:Hc; cbn.
Qed.

Lemma trimStart_id (s : string) : head_space s = false → ascii_trimStart s = s.
Proof. destruct s as [|c s]; [done|]. cbn. by intros ->. Qed.

Lemma trimEnd_split (s : string) :
  ∃ b, s = ascii_trimEnd s +:+ b ∧ all_chars Ascii.is_space b = true.
Proof.
  induction s as [|c s (b & Hs & Hb)]; [by exists ""|].
  cbn [ascii_trimEnd]. destruct (ascii_trimEnd s) as [|d t] eqn:Ht.
  - destruct (Ascii.is_space c) eqn:Hc.
    + exists (String c b). rewrite app_empty_l in *. subst s.
      cbn. by rewrite Hc, Hb.
    + exists b. rewrite app_empty_l in Hs. by subst s.
  - exists b. by rewrite app_cons, <- Hs.
Qed.

Lemma trimEnd_last (s : string) : last_space (ascii_trimEnd s) = false.
Proof.
  induction s as [|c s IH]; [done|].
  cbn [ascii_trimEnd]. destruct (ascii_trimEnd s) as [|d t] eqn:Ht.
  - by destruct (Ascii.is_space c) eqn:Hc; cbn.
  - done.
Qed.

Lemma trimEnd_cons (c : ascii) (s : string) :
  ascii_trimEnd (String c s) =
    match ascii_trimEnd s with
    | "" => if Ascii.is_space c then "" else String c ""
    | t => String c t
    end.
Proof. done. Qed.

Lemma trimEnd_id (s : string) : last_space s = false → ascii_trimEnd s = s.
Proof.
  induction s as [|c s IH]; [done|].
  destruct s as [|d s].
  - cbn. by intros ->.
  - intros Hl. rewrite trimEnd_cons, IH by done. done.
Qed.

Lemma trimEnd_head (s : string) :
  head_space s = false → head_space (ascii_trimEnd s) = false.
Proof.
  destruct s as [|c s]; [done|]. cbn [head_space ascii_trimEnd]. intros Hc.
  destruct (ascii_trimEnd s); by rewrite ?Hc.
Qed.

(** [ascii_trim] removes white space, and only white space, from the two ends. *)
Lemma trim_split (s : string) :
  ∃ a b, s = a +:+ ascii_trim s +:+ b
         ∧ all_chars Ascii.is_space a = true
         ∧ all_chars Ascii.is_space b = true.
Proof.
  destruct (trimStart_split s) as (a & Hs & Ha).
  destruct (trimEnd_split (ascii_trimStart s)) as (b & Ht & Hb).
  exists a, b. unfold ascii_trim. by rewrite <- Ht.
Qed.

Lemma trim_ends (s : string) :
  head_space (ascii_trim s) = false ∧ last_space (ascii_trim s) = false.
Proof.
  unfold ascii_trim. split.
  - apply trimEnd_head, trimStart_head.
  - apply trimEnd_last.
Qed.

Lemma trim_idemp (s : string) : ascii_trim (ascii_trim s) = ascii_trim s.
Proof.
  destruct (trim_ends s) as [Hh Hl].
  unfold ascii_trim at 1. by rewrite (trimStart_id _ Hh), (trimEnd_id _ Hl).
Qed.

End JSFacts.

(** ** Strings of ASCII characters *)

Module AsciiFacts.
Import JS Str.

Lemma is_ascii_cons (c : ascii) (s : string) :
  is_ascii (String c s) = true ↔ is_ascii_char c = true ∧ is_ascii s = true.
Proof. cbn. apply andb_true_iff. Qed.

Lemma is_ascii_app (s t : string) :
  is_ascii (s +:+ t) = true ↔ is_ascii s = true ∧ is_ascii t = true.
Proof.
  induction s as [|c s IH]; [by rewrite JSFacts.app_empty_l; intuition|].
  rewrite JSFacts.app_cons, !is_ascii_cons, IH. intuition.
Qed.

Lemma lower_char_ascii (c : ascii) :
  is_ascii_char c = true → is_ascii_char (lower_char c) = true.
Proof. by destruct c as [[] [] [] [] [] [] [] []]. Qed.

Lemma is_ascii_toLowerCase (s : string) :
  is_ascii s = true → is_ascii (ascii_toLowerCase s) = true.
Proof.
  induction s as [|c s IH]; [done|]. cbn [ascii_toLowerCase map_chars].
  rewrite !is_ascii_cons. intros [Hc Hs]. split; [by apply lower_char_ascii|by apply IH].
Qed.

Lemma is_ascii_split (f : ascii → bool) (s : string) :
  is_ascii s = true → Forall (λ piece, is_ascii piece = true) (split f s).
Proof.
  induction s as [|c s IH]; [by repeat constructor|]. cbn [split].
  rewrite is_ascii_cons. intros [Hc Hs]. specialize (IH Hs).
  pose proof (JSFacts.split_not_nil f s) as Hne.
  destruct (f c); [by constructor|].
  destruct (split f s) as [|piece pieces]; [done|].
  inversion IH as [|?? Hpiece Hpieces]; subst.
  constructor; [|done]. by apply is_ascii_cons.
Qed.

Lemma all_space_ascii (s : string) :
  all_chars Ascii.is_space s = true → is_ascii s = true.
Proof.
  induction s as [|c s IH]; [done|]. cbn.
  intros [Hc Hs]%andb_true_iff. rewrite (IH Hs), andb_true_r.
  by destruct c as [[] [] [] [] [] [] [] []].
Qed.

(** The first code unit of a string that starts with an ASCII character
    is that character. *)
Lemma charAt0_ascii (c : ascii) (s : string) :
  is_ascii_char c = true →
  charAt0 (String c s) = String c "" ∧ slice1 (String c s) = s.
Proof.
  intros Hc. unfold charAt0, slice1, unit_width.
  unfold is_ascii_char in Hc. rewrite Hc. split; [done|]. by destruct s.
Qed.

Lemma ascii_trim_spaces (s : string) :
  all_chars Ascii.is_space s = true → ascii_trim s = "".
Proof.
  intros Hs. unfold ascii_trim.
  assert (ascii_trimStart s = "") as ->; [|done].
  induction s as [|c s IH]; [done|]. cbn in *.
  apply andb_true_iff in Hs as [-> Hs]. auto.
Qed.

Lemma ascii_trim_split (s : string) :
  ∃ a b, s = a +:+ ascii_trim s +:+ b ∧ ascii_trim a = "" ∧ ascii_trim b = "".
Proof.
  destruct (JSFacts.trim_split s) as (a & b & Hs & Ha & Hb).
  exists a, b. split_and!; [done|by apply ascii_trim_spaces..].
Qed.

End AsciiFacts.

(** The ASCII functions satisfy what is asked of the built-ins; they are
    used to run the definitions on ASCII inputs. *)
Definition ascii_builtins : builtins :=
  {| toLowerCase := JS.ascii_toLowerCase;
     toUpperCase := JS.ascii_toUpperCase;
     trim := JS.ascii_trim;
     Number_toString := pretty;
     toLowerCase_ascii := λ _ _, eq_refl;
     toUpperCase_ascii := λ _ _, eq_refl;
     trim_ascii := λ _ _, eq_refl;
     trim_split := AsciiFacts.ascii_trim_split;
     trim_trim := JSFacts.trim_idemp;
     trim_ends := JSFacts.trim_ends;
     Number_toString_decimal := λ _ _, eq_refl |}.

(** ** formatNameFromSlug *)

Lemma format_word_unfold (B : builtins) (word : string) :
  word ≠ "" →
  format_word B word
  = toUpperCase B (JS.charAt0 (toLowerCase B word)) +:+ JS.slice1 (toLowerCase B word).
Proof. intros Hw%JSFacts.truthy_true. unfold format_word. by rewrite Hw. Qed.

Lemma take_drop_bytes (n : nat) (s : string) :
  JS.take_bytes n s +:+ JS.drop_bytes n s = s.
Proof.
  revert s. induction n as [|n IH]; intros [|c s]; try done.
  cbn [JS.take_bytes JS.drop_bytes]. by rewrite JSFacts.app_cons, IH.
Qed.

(** A string is its first code unit followed by the rest. *)
Lemma charAt0_slice1 (s : string) : JS.charAt0 s +:+ JS.slice1 s = s.
Proof. destruct s as [|c s]; [done|]. apply take_drop_bytes. Qed.

(** On a word of ASCII characters the arrow function is title case. *)
Lemma format_word_title_case (B : builtins) (word : string) :
  JS.is_ascii word = true → format_word B word = title_case word.
Proof.
  destruct word as [|c rest]; [done|]. intros Hw.
  rewrite format_word_unfold by done.
  rewrite (toLowerCase_ascii B _ Hw).
  apply AsciiFacts.is_ascii_toLowerCase in Hw as Hl.
  change (JS.ascii_toLowerCase (String c rest))
    with (String (JS.lower_char c) (JS.ascii_toLowerCase rest)) in *.
  apply AsciiFacts.is_ascii_cons in Hl as [Hc _].
  destruct (AsciiFacts.charAt0_ascii (JS.lower_char c)
              (JS.ascii_toLowerCase rest) Hc) as [-> ->].
  rewrite (toUpperCase_ascii B) by (cbn; by rewrite Hc).
  change (JS.ascii_toUpperCase (String (JS.lower_char c) ""))
    with (String (JS.upper_char (JS.lower_char c)) "").
  by rewrite JSFacts.upper_lower_char.
Qed.

Lemma formatNameFromSlug_tokens (B : builtins) (s : string) :
  formatNameFromSlug B s
  = JS.join " " (format_word B <$> JS.split (JS.char_is "-") s).
Proof. unfold formatNameFromSlug. by destruct s. Qed.

Lemma formatNameFromSlug_unfold (B : builtins) (s : string) :
  JS.is_ascii s = true →
  formatNameFromSlug B s
  = JS.join " " (title_case <$> JS.split (JS.char_is "-") s).
Proof.
  intros Hs. rewrite formatNameFromSlug_tokens. f_equal.
  apply Forall_fmap_ext_1. eapply Forall_impl; [by apply AsciiFacts.is_ascii_split|].
  intros w Hw. by apply format_word_title_case.
Qed.

(** C6. [formatNameFromSlug] splits its input at the hyphens (the tokens,
    joined again by hyphens, are the input, and no token holds a hyphen),
    maps each token to a word and joins the words by single spaces, one
    word per token.  The word of a token is the upper-cased first code
    unit of the lower-cased token, followed by the rest of the lower-cased
    token (the first code unit of "élodie" is "é"); for a token of ASCII
    characters that is its title case.  The
    empty string gives the empty string and an empty inner token gives an
    empty word: "jane-doe" gives "Jane Doe", "a--b" gives "A  B" with two
    spaces, and "JANE-DOE" gives "Jane Doe" too. *)
Theorem formatNameFromSlug_spec (B : builtins) :
  (∀ slug : string,
      let tokens := JS.split (JS.char_is "-") slug in
      formatNameFromSlug B slug = JS.join " " (format_word B <$> tokens)
      ∧ JS.join "-" tokens = slug
      ∧ Forall (λ t, Str.all_chars (λ c, negb (JS.char_is "-" c)) t = true) tokens
      ∧ length tokens = S (Str.count_chars (JS.char_is "-") slug))
  ∧ (∀ word, word ≠ "" →
       format_word B word
       = toUpperCase B (JS.charAt0 (toLowerCase B word))
         +:+ JS.slice1 (toLowerCase B word))
  ∧ (∀ s, JS.charAt0 s +:+ JS.slice1 s = s)
  ∧ JS.is_ascii "élodie" = false
  ∧ JS.charAt0 "élodie" = "é" ∧ JS.slice1 "élodie" = "lodie"
  ∧ JS.charAt0 "€uro" = "€" ∧ JS.slice1 "€uro" = "uro"
  ∧ format_word B "" = ""
  ∧ (∀ word, JS.is_ascii word = true → format_word B word = title_case word)
  ∧ (∀ slug, JS.is_ascii slug = true →
       formatNameFromSlug B slug
       = JS.join " " (title_case <$> JS.split (JS.char_is "-") slug))
  ∧ title_case "" = ""
  ∧ formatNameFromSlug B "" = ""
  ∧ formatNameFromSlug B "jane-doe" = "Jane Doe"
  ∧ formatNameFromSlug B "a--b" = "A  B"
  ∧ formatNameFromSlug B "JANE-DOE" = "Jane Doe"
  ∧ formatNameFromSlug B "mARY-o'NEIL" = "Mary O'neil".
Proof.
  split_and!; try done; try (by rewrite formatNameFromSlug_unfold).
  - intros slug tokens. subst tokens. split_and!.
    + apply formatNameFromSlug_tokens.
    + apply JSFacts.join_split.
    + apply JSFacts.split_pieces.
    + apply JSFacts.split_length.
  - apply format_word_unfold.
  - apply charAt0_slice1.
  - apply format_word_title_case.
  - apply formatNameFromSlug_unfold.
Qed.

Lemma formatNameFromSlug_spec_witness :
  JS.is_ascii "john-doe" = true
  ∧ formatNameFromSlug ascii_builtins "john-doe"
    = JS.join " " (title_case <$> JS.split (JS.char_is "-") "john-doe")
  ∧ formatNameFromSlug ascii_builtins "john-doe" = "John Doe".
Proof.
  split; [reflexivity|]. split; [|reflexivity].
  destruct (formatNameFromSlug_spec ascii_builtins)
    as (_ & _ & _ & _ & _ & _ & _ & _ & _ & _ & Hslug & _).
  apply Hslug. reflexivity.
Defined.

(** ** De-duplication *)

Section first_by_facts.
Context {K : Type} `{EqDecision K} (key : string → K).

Lemma first_by_sublist (items : list string) : first_by key items `sublist_of` items.
Proof.
  induction items as [|x rest IH]; [done|]. cbn.
  apply sublist_skip. etrans; [apply sublist_filter|done].
Qed.

Lemma first_by_NoDup (items : list string) : NoDup (key <$> first_by key items).
Proof.
  induction items as [|x rest IH]; cbn; [constructor|].
  constructor.
  - intros (y & Hxy & Hy)%list_elem_of_fmap.
    apply list_elem_of_filter in Hy as [Hne _]. by apply Hne.
  - eapply sublist_NoDup; [exact IH|]. apply fmap_sublist, sublist_filter.
Qed.

(** Nothing is lost but repetitions: the keys stay the same. *)
Lemma first_by_keys (items : list string) (k : K) :
  k ∈ key <$> first_by key items ↔ k ∈ key <$> items.
Proof.
  induction items as [|x rest IH]; [done|]. cbn.
  rewrite !elem_of_cons, <- IH, !list_elem_of_fmap.
  split.
  - intros [->|(y & -> & [_ Hy]%list_elem_of_filter)]; [by left|].
    right. by exists y.
  - intros [->|(y & -> & Hy)]; [by left|].
    destruct (decide (key y = key x)) as [Heq|Hne]; [by left|].
    right. exists y. split; [done|]. by apply list_elem_of_filter.
Qed.

(** The de-duplication of a prefix is a prefix of the de-duplication:
    what comes later never moves what came first. *)
Lemma first_by_app (l1 l2 : list string) :
  first_by key (l1 ++ l2)
  = first_by key l1 ++ filter (λ y, key y ∉ key <$> l1) (first_by key l2).
Proof.
  induction l1 as [|x l1 IH]; cbn.
  - induction (first_by key l2) as [|y l IHl]; [done|].
    rewrite filter_cons_True by apply not_elem_of_nil. by rewrite <- IHl.
  - f_equal. rewrite IH, filter_app. f_equal.
    rewrite list_filter_filter. apply list_filter_iff. intros y.
    rewrite not_elem_of_cons. naive_solver.
Qed.

(** An element that is the first with its key is kept, right after the
    de-duplication of what precedes it. *)
Lemma first_by_first (l1 : list string) (x : string) (l2 : list string) :
  key x ∉ key <$> l1 →
  ∃ tail, first_by key (l1 ++ x :: l2) = first_by key l1 ++ x :: tail.
Proof.
  intros Hx. rewrite first_by_app. cbn [first_by].
  rewrite filter_cons_True by done. eauto.
Qed.

End first_by_facts.

(** ** parseInterests *)

(** The filter with its growing [seen] set computes [first_seen], minus
    what was seen before it started. *)
Lemma Array_filter_unseen (B : builtins) (items : list string) (seen : gset string) :
  (Array_filter (unseen B) items seen).1
  = filter (λ y, toLowerCase B y ∉ seen) (first_seen B items).
Proof.
  unfold first_seen.
  revert seen. induction items as [|x rest IH]; intros seen; [done|].
  cbn [Array_filter first_by]. unfold unseen at 1.
  case_bool_decide as Hx.
  - destruct (Array_filter (unseen B) rest seen) as [kept st] eqn:E.
    cbn [fst]. replace kept with (Array_filter (unseen B) rest seen).1 by (by rewrite E).
    rewrite IH, filter_cons_False by (intros Hn; by apply Hn).
    rewrite list_filter_filter. apply list_filter_iff. intros y.
    split; [|by intros [? _]]. intros Hy. split; [done|]. congruence.
  - destruct (Array_filter (unseen B) rest _) as [kept st] eqn:E.
    cbn [fst].
    replace kept with (Array_filter (unseen B) rest ({[toLowerCase B x]} ∪ seen)).1
      by (by rewrite E).
    rewrite IH, filter_cons_True by done. f_equal.
    rewrite list_filter_filter. apply list_filter_iff. intros y.
    rewrite not_elem_of_union, not_elem_of_singleton. split.
    + intros [Hy Hs]. split; [|done]. congruence.
    + intros [Hy Hs]. split; [done|]. congruence.
Qed.

Lemma Array_filter_unseen_empty (B : builtins) (items : list string) :
  (Array_filter (unseen B) items ∅).1 = first_seen B items.
Proof.
  rewrite Array_filter_unseen.
  induction (first_seen B items) as [|y l IH]; [done|].
  rewrite filter_cons_True by apply not_elem_of_empty. by rewrite IH.
Qed.

Lemma is_delim_spec (c : ascii) :
  is_delim c = true ↔ c ∈ [","%char; ";"%char; "|"%char; "010"%char].
Proof.
  split.
  - destruct c as [[] [] [] [] [] [] [] []]; cbn; try done; intros _;
      repeat (first [by left | right]).
  - intros Hc. repeat (apply elem_of_cons in Hc as [->|Hc]; [done|]).
    by apply elem_of_nil in Hc.
Qed.

Lemma parseInterests_falsy (B : builtins) (v : value) :
  ToBoolean v = false → parseInterests B v = [].
Proof. unfold parseInterests. by intros ->. Qed.

Lemma filter_truthy (l : list string) :
  filter (λ s, JS.truthy s) l = filter (λ s, s ≠ "") l.
Proof.
  apply list_filter_iff. intros s. rewrite Is_true_true. apply JSFacts.truthy_true.
Qed.

Lemma trim_empty (B : builtins) : trim B "" = "".
Proof. by rewrite (trim_ascii B). Qed.

Lemma parseInterests_string (B : builtins) (s : string) :
  parseInterests B (VStr s)
  = first_seen B (filter (λ e, e ≠ "") (trim B <$> JS.split is_delim s)).
Proof.
  unfold parseInterests. destruct (ToBoolean (VStr s)) eqn:Hs; cbn [negb].
  - by rewrite Array_filter_unseen_empty, filter_truthy.
  - cbn in Hs. apply JSFacts.truthy_false in Hs as ->.
    cbn [JS.split fmap list_fmap]. rewrite trim_empty.
    by rewrite filter_cons_False by (intros Hn; by apply Hn).
Qed.

Lemma parseInterests_array (B : builtins) (a : list value) :
  parseInterests B (VArr a)
  = first_seen B (filter (λ e, e ≠ "") ((λ x, trim B (ToString B x)) <$> a)).
Proof.
  unfold parseInterests. cbn [ToBoolean negb].
  by rewrite Array_filter_unseen_empty, filter_truthy.
Qed.

(** Every entry returned is non-empty and trimmed: trimming does not
    change it, and it has no ASCII white space at its ends. *)
Lemma parseInterests_entries (B : builtins) (v : value) :
  Forall (λ x, x ≠ "" ∧ trim B x = x
               ∧ Str.head_space x = false ∧ Str.last_space x = false)
         (parseInterests B v).
Proof.
  assert (∀ l : list string,
            Forall (λ x, x ≠ "" ∧ trim B x = x
                         ∧ Str.head_space x = false ∧ Str.last_space x = false)
                   (first_seen B (filter (λ s, JS.truthy s) (trim B <$> l)))) as Hgen.
  { intros l. apply Forall_forall. intros x Hx.
    pose proof (elem_of_sublist _ _ _ Hx (first_by_sublist _ _)) as Hx'.
    apply list_elem_of_filter in Hx' as [Hne Hx'].
    apply list_elem_of_fmap in Hx' as (y & -> & _).
    split; [by apply JSFacts.truthy_true, Is_true_true|].
    split; [apply trim_trim|apply trim_ends]. }
  unfold parseInterests. destruct (ToBoolean v); cbn [negb]; [|constructor].
  rewrite Array_filter_unseen_empty.
  destruct v; try apply Hgen.
  rewrite (list_fmap_compose (ToString B) (trim B)). apply Hgen.
Qed.

(** De-duplication looks at the keys of the elements it is given only. *)
Lemma first_by_ext {K : Type} `{EqDecision K} (key1 key2 : string → K)
    (l : list string) :
  Forall (λ x, key1 x = key2 x) l → first_by key1 l = first_by key2 l.
Proof.
  induction 1 as [|x l Hx Hl IH]; [done|]. cbn [first_by]. rewrite IH. f_equal.
  assert (Forall (λ y, key1 y = key2 y) (first_by key2 l)) as Hsub.
  { apply Forall_forall. intros y Hy. eapply (proj1 (Forall_forall _ _) Hl).
    by eapply elem_of_sublist, first_by_sublist. }
  clear -Hx Hsub. induction Hsub as [|y k Hy _ IHk]; [done|].
  rewrite !filter_cons, IHk, Hx, Hy. by destruct (decide (key2 y ≠ key2 x)).
Qed.

Lemma is_ascii_trim (s : string) :
  JS.is_ascii s = true → JS.is_ascii (JS.ascii_trim s) = true.
Proof.
  intros Hs. destruct (JSFacts.trim_split s) as (a & b & Heq & _).
  rewrite Heq in Hs. by apply AsciiFacts.is_ascii_app in Hs as [_ [? _]%AsciiFacts.is_ascii_app].
Qed.

(** On entries of ASCII characters the pipeline is the ASCII one. *)
Lemma clean_ascii_entries (B : builtins) (l : list string) :
  Forall (λ x, JS.is_ascii x = true) l →
  first_seen B (filter (λ e, e ≠ "") (trim B <$> l))
  = first_seen ascii_builtins (filter (λ e, e ≠ "") (JS.ascii_trim <$> l)).
Proof.
  intros Hl.
  assert (trim B <$> l = JS.ascii_trim <$> l) as ->.
  { apply Forall_fmap_ext_1. eapply Forall_impl; [done|].
    intros x Hx. by apply trim_ascii. }
  apply first_by_ext, Forall_forall. intros x [_ Hx]%list_elem_of_filter.
  apply list_elem_of_fmap in Hx as (y & -> & Hy).
  apply toLowerCase_ascii, is_ascii_trim.
  by eapply (proj1 (Forall_forall _ _) Hl).
Qed.

Lemma parseInterests_ascii_string (B : builtins) (s : string) :
  JS.is_ascii s = true →
  parseInterests B (VStr s) = parseInterests ascii_builtins (VStr s).
Proof.
  intros Hs. rewrite !parseInterests_string.
  by apply clean_ascii_entries, AsciiFacts.is_ascii_split.
Qed.

Lemma parseInterests_ascii_array (B : builtins) (l : list string) :
  Forall (λ x, JS.is_ascii x = true) l →
  parseInterests B (VArr (VStr <$> l)) = parseInterests ascii_builtins (VArr (VStr <$> l)).
Proof.
  intros Hl. rewrite !parseInterests_array, <- !list_fmap_compose.
  by apply clean_ascii_entries.
Qed.

(** C5. [parseInterests] gives the empty list on [null], [undefined] and
    every other falsy value.  A string is cut at the commas, semicolons,
    vertical bars and newlines (the pieces hold none of them, there is one
    more piece than delimiters, and the pieces with the delimiters put
    back between them are the string); the elements of an array are
    converted to strings.  In both cases the entries are trimmed (the
    entries returned are left unchanged by [trim]; on an entry of ASCII
    characters white space, and nothing else, is removed at the two
    ends), the empty ones are dropped, and of the entries whose lower-case
    forms are equal only the first seen is kept, with its casing and in
    the order of the input.  "AI, ai; Robotics" gives ["AI"; "Robotics"]
    and ["x"; "x"; "y"] gives ["x"; "y"]. *)
Theorem parseInterests_spec (B : builtins) :
  (∀ v, ToBoolean v = false → parseInterests B v = [])
  ∧ parseInterests B VNull = [] ∧ parseInterests B VUndefined = []
  ∧ (∀ c, is_delim c = true ↔ c ∈ [","%char; ";"%char; "|"%char; "010"%char])
  ∧ (∀ s : string,
       let pieces := JS.split is_delim s in
       parseInterests B (VStr s)
       = first_seen B (filter (λ e, e ≠ "") (trim B <$> pieces))
       ∧ Forall (λ piece, Str.all_chars (λ c, negb (is_delim c)) piece = true) pieces
       ∧ length pieces = S (Str.count_chars is_delim s)
       ∧ ∃ seps, Forall (λ c, is_delim c = true) seps
                 ∧ length pieces = S (length seps)
                 ∧ Str.weave pieces seps = s)
  ∧ (∀ a : list value,
       parseInterests B (VArr a)
       = first_seen B (filter (λ e, e ≠ "") ((λ x, trim B (ToString B x)) <$> a)))
  ∧ (∀ s : string,
       JS.is_ascii s = true →
       ∃ a b, s = a +:+ trim B s +:+ b
              ∧ Str.all_chars Ascii.is_space a = true
              ∧ Str.all_chars Ascii.is_space b = true)
  ∧ (∀ v, Forall (λ x, x ≠ "" ∧ trim B x = x
                       ∧ Str.head_space x = false ∧ Str.last_space x = false)
                 (parseInterests B v))
  ∧ (∀ items : list string,
       NoDup (toLowerCase B <$> first_seen B items)
       ∧ first_seen B items `sublist_of` items
       ∧ (∀ k, k ∈ toLowerCase B <$> first_seen B items
               ↔ k ∈ toLowerCase B <$> items)
       ∧ (∀ l1 x l2,
            items = l1 ++ x :: l2 →
            toLowerCase B x ∉ toLowerCase B <$> l1 →
            ∃ tail, first_seen B items = first_seen B l1 ++ x :: tail))
  ∧ parseInterests B (VStr "AI, ai; Robotics") = ["AI"; "Robotics"]
  ∧ parseInterests B (VArr [VStr "x"; VStr "x"; VStr "y"]) = ["x"; "y"]
  ∧ parseInterests B (VStr " Stars ,STARS|dust") = ["Stars"; "dust"].
Proof.
  split_and!; try done.
  - apply parseInterests_falsy.
  - apply is_delim_spec.
  - intros s pieces. subst pieces. split_and!.
    + apply parseInterests_string.
    + apply JSFacts.split_pieces.
    + apply JSFacts.split_length.
    + apply JSFacts.split_weave.
  - apply parseInterests_array.
  - intros s Hs. rewrite (trim_ascii B s Hs). apply JSFacts.trim_split.
  - apply parseInterests_entries.
  - intros items. unfold first_seen. split_and!.
    + apply first_by_NoDup.
    + apply first_by_sublist.
    + apply first_by_keys.
    + intros l1 x l2 -> Hx. by apply first_by_first.
  - by rewrite parseInterests_ascii_string.
  - change (VArr [VStr "x"; VStr "x"; VStr "y"]) with (VArr (VStr <$> ["x"; "x"; "y"])).
    by rewrite parseInterests_ascii_array by by repeat constructor.
  - by rewrite parseInterests_ascii_string.
Qed.

Lemma parseInterests_spec_witness :
  ToBoolean (VNum 0) = false ∧ parseInterests ascii_builtins (VNum 0) = []
  ∧ ∃ tail, first_seen ascii_builtins (["AI"] ++ "Robotics" :: ["ai"])
            = first_seen ascii_builtins ["AI"] ++ "Robotics" :: tail.
Proof.
  split; [reflexivity|]. split.
  - apply (proj1 (parseInterests_spec ascii_builtins)). reflexivity.
  - destruct (parseInterests_spec ascii_builtins)
      as (_ & _ & _ & _ & _ & _ & _ & _ & Hfirst & _).
    destruct (Hfirst (["AI"] ++ "Robotics" :: ["ai"])) as (_ & _ & _ & Hpos).
    apply (Hpos ["AI"] "Robotics" ["ai"]); [reflexivity|].
    intros (y & Hy & ->%list_elem_of_singleton)%list_elem_of_fmap.
    vm_compute in Hy. discriminate Hy.
Defined.


(** ** imageCandidates *)

Lemma foldl_push {A : Type} (f : A → string) (l : list A) (acc : list string) :
  foldl (λ c x, c ++ [f x]) acc l = acc ++ (f <$> l).
Proof.
  revert acc. induction l as [|x l IH]; intros acc; cbn.
  - by rewrite app_nil_r.
  - by rewrite IH, <- app_assoc.
Qed.

Lemma foldl_push_nested {A B : Type} (f : A → B → string) (l : list A)
    (k : list B) (acc : list string) :
  foldl (λ c x, foldl (λ c' y, c' ++ [f x y]) c k) acc l
  = acc ++ (l ≫= (λ x, f x <$> k)).
Proof.
  revert acc. induction l as [|x l IH]; intros acc; cbn.
  - by rewrite app_nil_r.
  - by rewrite IH, foldl_push, <- app_assoc.
Qed.

(** The candidates pushed by steps 1 to 3, kind by kind: the year folders
    contribute only when a non-empty folder path and at least one year
    are given. *)
Lemma candidates_before_default_parts (slug : string) (p : option person)
    (years : list string) (imgRoster : string) (imgYears : option string) :
  candidates_before_default slug p years imgRoster imgYears
  = photo_candidates p ++ roster_candidates imgRoster slug
    ++ match imgYears with
       | Some dir => if JS.truthy dir then year_candidates dir years slug else []
       | None => []
       end.
Proof.
  unfold candidates_before_default.
  set (c1 := match p with Some _ => _ | None => _ end).
  assert (c1 = photo_candidates p) as ->.
  { subst c1. by destruct p as [[[ph|]]|]. }
  rewrite foldl_push. fold (roster_candidates imgRoster slug).
  destruct imgYears as [dir|]; [|by rewrite app_nil_r].
  destruct (JS.truthy dir); cbn [andb]; [|by rewrite app_nil_r].
  case_bool_decide as Hy.
  - rewrite (foldl_push_nested
               (λ year ext, dir +:+ "/" +:+ year +:+ "/" +:+ slug +:+ ext)).
    by rewrite <- app_assoc.
  - destruct years; [|cbn in Hy; lia]. by rewrite app_nil_r.
Qed.

Lemma JSSet_of_array_from (l : list string) (acc : JSSet.t) :
  foldl (λ s x, JSSet.add x s) acc l
  = acc ++ filter (λ y, y ∉ acc) (first_occurrences l).
Proof.
  unfold first_occurrences.
  revert acc. induction l as [|x l IH]; intros acc; cbn [foldl first_by].
  - by rewrite app_nil_r.
  - rewrite IH. unfold JSSet.add, JSSet.has. case_bool_decide as Hx.
    + rewrite filter_cons_False by (intros Hn; by apply Hn).
      rewrite list_filter_filter. f_equal. apply list_filter_iff. intros y.
      split; [|by intros [? _]]. intros Hy. split; [done|]. cbn. congruence.
    + rewrite filter_cons_True by done. rewrite <- app_assoc. cbn [app]. do 2 f_equal.
      rewrite list_filter_filter. apply list_filter_iff. intros y.
      rewrite not_elem_of_app, not_elem_of_cons. cbn. split.
      * by intros (? & ? & _).
      * intros [? ?]. split_and!; [done..|apply not_elem_of_nil].
Qed.

(** A [Set] built from an array lists its distinct elements, each at
    the place of its first occurrence. *)
Lemma JSSet_of_array (l : list string) :
  JSSet.to_array (JSSet.of_array l) = first_occurrences l.
Proof.
  unfold JSSet.to_array, JSSet.of_array, JSSet.empty.
  rewrite JSSet_of_array_from. cbn [app].
  induction (first_occurrences l) as [|y k IH]; [done|].
  rewrite filter_cons_True by apply not_elem_of_nil. by rewrite IH.
Qed.

Lemma imageCandidates_unfold (slug : string) (p : option person)
    (years : option (list string)) (imgRoster : string)
    (imgYears defaultImg : option string) :
  imageCandidates slug p years imgRoster imgYears defaultImg
  = first_occurrences
      (filter (λ u, u ≠ "")
         (candidates_before_default slug p (or_default [] years) imgRoster imgYears
          ++ [or_default DEFAULT_IMG defaultImg])).
Proof. unfold imageCandidates. by rewrite JSSet_of_array, filter_truthy. Qed.

Lemma app_not_empty_r (s t : string) : t ≠ "" → s +:+ t ≠ "".
Proof. destruct s; [done|]. by rewrite JSFacts.app_cons. Qed.

Lemma candidates_before_default_truthy (slug : string) (p : option person)
    (years : list string) (imgRoster : string) (imgYears : option string) :
  Forall (λ u, u ≠ "") (candidates_before_default slug p years imgRoster imgYears).
Proof.
  rewrite candidates_before_default_parts. rewrite !Forall_app. split_and!.
  - destruct p as [[[ph|]]|]; cbn; try constructor.
    destruct (JS.truthy ph) eqn:Hph; repeat constructor.
    by apply JSFacts.truthy_true.
  - unfold roster_candidates. apply Forall_fmap, Forall_true.
    intros ext. cbn. by apply app_not_empty_r.
  - destruct imgYears as [dir|]; [|constructor].
    destruct (JS.truthy dir); [|constructor].
    unfold year_candidates. apply Forall_bind, Forall_true. intros year.
    apply Forall_fmap, Forall_true. intros ext. cbn. by apply app_not_empty_r.
Qed.

Lemma filter_all {A : Type} (P : A → Prop) `{!∀ x, Decision (P x)} (l : list A) :
  Forall P l → filter P l = l.
Proof.
  induction 1 as [|x l Hx _ IH]; [done|]. by rewrite filter_cons_True, IH.
Qed.

Lemma first_occurrences_elem (l : list string) (u : string) :
  u ∈ first_occurrences l ↔ u ∈ l.
Proof.
  pose proof (first_by_keys id l u) as H.
  by rewrite !list_fmap_id in H.
Qed.

Lemma first_occurrences_NoDup (l : list string) : NoDup (first_occurrences l).
Proof.
  pose proof (first_by_NoDup id l) as H. by rewrite list_fmap_id in H.
Qed.

Lemma imageCandidates_default_pushed (slug : string) (p : option person)
    (years : option (list string)) (imgRoster : string) (imgYears : option string) :
  imageCandidates slug p years imgRoster imgYears None
  = first_occurrences
      (candidates_before_default slug p (or_default [] years) imgRoster imgYears
       ++ [DEFAULT_IMG]).
Proof.
  rewrite imageCandidates_unfold. f_equal. apply filter_all.
  apply Forall_app. split; [apply candidates_before_default_truthy|].
  by repeat constructor.
Qed.

(** C3. With the default fallback path, the list returned by
    [imageCandidates] has no duplicate, holds the fallback path, and holds
    exactly the candidates that were generated, in the order of their
    first occurrences: a candidate stands right after the distinct
    candidates generated before its first occurrence.  The fallback is
    last when no earlier candidate equals it; when one does, the list is
    the de-duplication of the earlier candidates and the fallback stays
    where it first occurred. *)
Theorem imageCandidates_dedup (slug : string) (p : option person)
    (years : option (list string)) (imgRoster : string) (imgYears : option string) :
  let before :=
    candidates_before_default slug p (or_default [] years) imgRoster imgYears in
  let out := imageCandidates slug p years imgRoster imgYears None in
  NoDup out
  ∧ DEFAULT_IMG ∈ out
  ∧ (∀ u, u ∈ out ↔ u ∈ before ++ [DEFAULT_IMG])
  ∧ out `sublist_of` before ++ [DEFAULT_IMG]
  ∧ (∀ l1 x l2,
       before ++ [DEFAULT_IMG] = l1 ++ x :: l2 → x ∉ l1 →
       ∃ tail, out = first_occurrences l1 ++ x :: tail
               ∧ ∀ u, u ∈ first_occurrences l1 ↔ u ∈ l1)
  ∧ (DEFAULT_IMG ∉ before → out = first_occurrences before ++ [DEFAULT_IMG])
  ∧ (DEFAULT_IMG ∈ before → out = first_occurrences before).
Proof.
  intros before out.
  assert (out = first_occurrences (before ++ [DEFAULT_IMG])) as Hout
    by apply imageCandidates_default_pushed.
  assert (out = first_occurrences before
                ++ filter (λ y, y ∉ before) [DEFAULT_IMG]) as Hsplit.
  { rewrite Hout. unfold first_occurrences. rewrite first_by_app.
    by rewrite list_fmap_id. }
  split_and!.
  - rewrite Hout. apply first_occurrences_NoDup.
  - rewrite Hout. apply first_occurrences_elem, elem_of_app. right. by left.
  - intros u. rewrite Hout. apply first_occurrences_elem.
  - rewrite Hout. apply first_by_sublist.
  - intros l1 x l2 Heq Hx. rewrite Hout, Heq.
    destruct (first_by_first id l1 x l2) as [tail Htail].
    { by rewrite list_fmap_id. }
    exists tail. split; [done|]. intros u. apply first_occurrences_elem.
  - intros Hd. by rewrite Hsplit, filter_cons_True.
  - intros Hd. rewrite Hsplit, filter_cons_False by (intros Hn; by apply Hn).
    by rewrite app_nil_r.
Qed.

Lemma imageCandidates_dedup_witness :
  imageCandidates "jane" (Some {| photo := Some DEFAULT_IMG |}) (Some ["2023"])
                  "/roster" (Some "/years") None
  = first_occurrences
      (candidates_before_default "jane" (Some {| photo := Some DEFAULT_IMG |})
                                 ["2023"] "/roster" (Some "/years")).
Proof.
  apply (imageCandidates_dedup "jane" (Some {| photo := Some DEFAULT_IMG |})
           (Some ["2023"]) "/roster" (Some "/years")).
  vm_compute. left.
Defined.

(** C8. When the list of years is empty (or omitted), steps 1 to 3
    generate the explicit photo and the roster-folder candidates only,
    whatever year base path is given: the result is the one obtained
    without a year base path, and each of its elements is the explicit
    photo, a roster-folder candidate or the fallback. *)
Theorem imageCandidates_no_years (slug : string) (p : option person)
    (years : option (list string)) (imgRoster : string)
    (imgYears defaultImg : option string) :
  or_default [] years = [] →
  let out := imageCandidates slug p years imgRoster imgYears defaultImg in
  candidates_before_default slug p (or_default [] years) imgRoster imgYears
  = photo_candidates p ++ roster_candidates imgRoster slug
  ∧ (∀ dir, year_candidates dir (or_default [] years) slug = [])
  ∧ out = imageCandidates slug p years imgRoster None defaultImg
  ∧ Forall (λ u, u ∈ photo_candidates p ++ roster_candidates imgRoster slug
                      ++ [or_default DEFAULT_IMG defaultImg]) out.
Proof.
  intros Hyears out.
  assert (∀ iy, candidates_before_default slug p (or_default [] years) imgRoster iy
                = photo_candidates p ++ roster_candidates imgRoster slug) as Hbefore.
  { intros iy. rewrite candidates_before_default_parts, Hyears.
    destruct iy as [dir|]; [|by rewrite app_nil_r].
    destruct (JS.truthy dir); by rewrite app_nil_r. }
  split_and!.
  - apply Hbefore.
  - intros dir. by rewrite Hyears.
  - subst out. by rewrite !imageCandidates_unfold, !Hbefore.
  - subst out. rewrite imageCandidates_unfold, Hbefore, <- app_assoc.
    apply Forall_forall. intros u Hu.
    apply first_occurrences_elem, list_elem_of_filter in Hu. by destruct Hu.
Qed.

Lemma imageCandidates_no_years_witness :
  imageCandidates "jane" None (Some []) "/roster" (Some "/years") None
  = imageCandidates "jane" None (Some []) "/roster" None None.
Proof.
  apply (imageCandidates_no_years "jane" None (Some []) "/roster" (Some "/years") None).
  reflexivity.
Defined.

(** C9. Every element of the list returned by [imageCandidates] is a
    non-empty string.  A person record whose photo is missing or empty
    gives the same list as no person record at all, so it contributes no
    explicit-photo candidate.  When the caller passes the empty string as
    fallback, the list is the de-duplication of the candidates generated
    before the fallback: no entry stands for the fallback. *)
Theorem imageCandidates_truthy (slug : string) (p : option person)
    (years : option (list string)) (imgRoster : string)
    (imgYears defaultImg : option string) :
  Forall (λ u, JS.truthy u = true)
         (imageCandidates slug p years imgRoster imgYears defaultImg)
  ∧ ("" ∉ imageCandidates slug p years imgRoster imgYears defaultImg)
  ∧ photo_candidates (Some {| photo := Some "" |}) = []
  ∧ photo_candidates (Some {| photo := None |}) = []
  ∧ imageCandidates slug (Some {| photo := Some "" |}) years imgRoster imgYears defaultImg
    = imageCandidates slug None years imgRoster imgYears defaultImg
  ∧ imageCandidates slug (Some {| photo := None |}) years imgRoster imgYears defaultImg
    = imageCandidates slug None years imgRoster imgYears defaultImg
  ∧ imageCandidates slug p years imgRoster imgYears (Some "")
    = first_occurrences
        (candidates_before_default slug p (or_default [] years) imgRoster imgYears).
Proof.
  assert (∀ d u, u ∈ imageCandidates slug p years imgRoster imgYears d → u ≠ "") as Hne.
  { intros d u. rewrite imageCandidates_unfold.
    intros Hu. apply first_occurrences_elem, list_elem_of_filter in Hu.
    by destruct Hu. }
  split_and!; try done.
  - apply Forall_forall. intros u Hu. apply JSFacts.truthy_true. by eapply Hne.
  - intros Hin. by eapply Hne.
  - rewrite imageCandidates_unfold. f_equal. cbn [or_default default].
    rewrite filter_app, filter_cons_False by (intros Hn; by apply Hn).
    rewrite filter_nil, app_nil_r.
    apply filter_all, candidates_before_default_truthy.
Qed.


(** ** firstReachableImage *)

Lemma array_get_last (urls : list string) :
  array_get urls (Z.of_nat (length urls) - 1) = last urls.
Proof.
  unfold array_get. destruct urls as [|u urls]; [done|].
  rewrite last_lookup. cbn [length].
  destruct (Z.ltb_spec (Z.of_nat (S (length urls)) - 1) 0) as [Hlt|Hge]; [lia|].
  f_equal. lia.
Qed.

Lemma tryNext_exhausted (urls : list string) (σ : probe_state) :
  length urls ≤ index σ →
  tryNext urls σ = resolve (or_default_img (last urls)) σ.
Proof.
  intros Hi. unfold tryNext. by rewrite bool_decide_true, array_get_last.
Qed.

Lemma tryNext_probe (urls : list string) (σ : probe_state) (url : string) :
  urls !! index σ = Some url →
  tryNext urls σ
  = {| index := S (index σ); loading := Some url; img_onload := Some url;
       img_onerror := true; result := result σ;
       history := history σ ++ [Requested url] |}.
Proof.
  intros Hu. unfold tryNext. rewrite Hu.
  apply lookup_lt_Some in Hu. by rewrite bool_decide_false by lia.
Qed.

Lemma event_loop_idle (reachable : string → bool) (urls : list string)
    (fuel : nat) (σ : probe_state) :
  loading σ = None → event_loop reachable urls fuel σ = σ.
Proof. intros Hl. destruct fuel; cbn; by rewrite ?Hl. Qed.

Lemma event_loop_step (reachable : string → bool) (urls : list string)
    (fuel : nat) (σ : probe_state) (url : string) :
  loading σ = Some url →
  event_loop reachable urls (S fuel) σ
  = event_loop reachable urls fuel (deliver reachable urls url σ).
Proof. intros Hl. cbn. by rewrite Hl. Qed.

(** The run of the probe from a moment where [tryNext] is about to be
    called: the candidates before [index] are behind, no load is in
    flight and the promise is pending.  Given fuel for the candidates
    that remain, the event loop comes to rest with the promise fulfilled. *)
Lemma event_loop_tryNext (reachable : string → bool) (done_ rest : list string) :
  ∀ (fuel : nat) (σ : probe_state),
    length rest ≤ fuel →
    index σ = length done_ →
    loading σ = None →
    result σ = Pending →
    ∃ σ', event_loop reachable (done_ ++ rest) fuel (tryNext (done_ ++ rest) σ) = σ'
      ∧ loading σ' = None
      ∧ index σ' = length done_ + requested reachable rest
      ∧ history σ' = history σ ++ probe_history reachable rest
      ∧ result σ' = Fulfilled (default (or_default_img (last (done_ ++ rest)))
                                       (first_reachable reachable rest)).
Proof.
  revert done_. induction rest as [|u rest IH]; intros done_ fuel σ Hfuel Hidx Hload Hres.
  - rewrite app_nil_r, tryNext_exhausted by lia.
    unfold resolve. rewrite Hres. rewrite event_loop_idle by done.
    eexists. split; [done|]. cbn. rewrite app_nil_r, Hidx. split_and!; [done|lia|done..].
  - destruct fuel as [|fuel]; [cbn in Hfuel; lia|].
    rewrite (tryNext_probe _ _ u) by (by rewrite Hidx, list_lookup_middle).
    rewrite (event_loop_step _ _ _ _ u) by done.
    unfold deliver. cbn [probe_history first_reachable requested].
    destruct (reachable u) eqn:Hu.
    + cbn [img_onload]. unfold resolve. cbn [result]. rewrite Hres.
      rewrite event_loop_idle by done.
      eexists. split; [done|]. cbn. rewrite <- app_assoc, Hidx.
      split_and!; [done|lia|done..].
    + cbn [img_onerror index loading img_onload result history].
      match goal with |- context [tryNext _ ?s] => set (σ1 := s) end.
      replace (done_ ++ u :: rest) with ((done_ ++ [u]) ++ rest)
        by (by rewrite <- app_assoc).
      destruct (IH (done_ ++ [u]) fuel σ1) as (σ' & Hrun & Hl & Hi & Hh & Hr).
      * cbn in Hfuel. lia.
      * subst σ1. cbn. rewrite length_app. cbn. lia.
      * done.
      * done.
      * exists σ'. split; [done|]. split_and!; [done| | |done].
        -- rewrite Hi, length_app. cbn [length]. lia.
        -- rewrite Hh. subst σ1. cbn [history]. by rewrite <- !app_assoc.
Qed.

Lemma firstReachableImage_run (reachable : string → bool) (urls : list string)
    (fuel : nat) :
  length urls ≤ fuel →
  loading (firstReachableImage reachable urls fuel) = None
  ∧ index (firstReachableImage reachable urls fuel) = requested reachable urls
  ∧ history (firstReachableImage reachable urls fuel) = probe_history reachable urls
  ∧ result (firstReachableImage reachable urls fuel)
    = Fulfilled (default (or_default_img (last urls))
                         (first_reachable reachable urls)).
Proof.
  intros Hfuel. unfold firstReachableImage.
  destruct (event_loop_tryNext reachable [] urls fuel executor_start)
    as (σ' & Hrun & Hl & Hi & Hh & Hr); try done.
  cbn [app] in Hrun. by rewrite Hrun.
Qed.

Lemma first_reachable_none (reachable : string → bool) (urls : list string) :
  first_reachable reachable urls = None ↔ Forall (λ u, reachable u = false) urls.
Proof.
  induction urls as [|u urls IH]; cbn; [by split; [constructor|]|].
  rewrite Forall_cons. destruct (reachable u); [|by rewrite IH; intuition].
  split; [done|]. by intros [? _].
Qed.

Lemma first_reachable_elem (reachable : string → bool) (urls : list string)
    (u : string) :
  first_reachable reachable urls = Some u → u ∈ urls ∧ reachable u = true.
Proof.
  induction urls as [|x urls IH]; cbn; [done|].
  destruct (reachable x) eqn:Hx.
  - intros [= <-]. split; [by left|done].
  - intros Hu. destruct (IH Hu). split; [by right|done].
Qed.

Lemma first_reachable_app (reachable : string → bool) (pre : list string)
    (u : string) (post : list string) :
  Forall (λ x, reachable x = false) pre → reachable u = true →
  first_reachable reachable (pre ++ u :: post) = Some u.
Proof.
  intros Hpre Hu. induction Hpre as [|x pre Hx _ IH]; cbn; by rewrite ?Hu, ?Hx.
Qed.

Lemma requested_app (reachable : string → bool) (pre : list string)
    (u : string) (post : list string) :
  Forall (λ x, reachable x = false) pre → reachable u = true →
  requested reachable (pre ++ u :: post) = S (length pre).
Proof.
  intros Hpre Hu. induction Hpre as [|x pre Hx _ IH]; cbn; by rewrite ?Hu, ?Hx, ?IH.
Qed.

Lemma probe_history_app (reachable : string → bool) (pre : list string)
    (u : string) (post : list string) :
  Forall (λ x, reachable x = false) pre → reachable u = true →
  probe_history reachable (pre ++ u :: post)
  = (pre ≫= λ x, [Requested x; Failed x]) ++ [Requested u; Loaded u].
Proof.
  intros Hpre Hu. induction Hpre as [|x pre Hx _ IH]; cbn.
  - by rewrite Hu.
  - by rewrite Hx, IH.
Qed.

(** C2. When some candidate loads, the candidates are probed in list
    order, one at a time: each request is answered before the next one is
    made, every candidate before the first one that loads is requested and
    fails, that one is requested and loads, the promise is fulfilled with
    it, and no later candidate is requested ([index] stops right after
    it and no load is left in flight). *)
Theorem firstReachableImage_first (reachable : string → bool)
    (pre : list string) (u : string) (post : list string) (fuel : nat) :
  Forall (λ x, reachable x = false) pre →
  reachable u = true →
  length (pre ++ u :: post) ≤ fuel →
  let σ := firstReachableImage reachable (pre ++ u :: post) fuel in
  result σ = Fulfilled u
  ∧ history σ = (pre ≫= λ x, [Requested x; Failed x]) ++ [Requested u; Loaded u]
  ∧ index σ = S (length pre)
  ∧ loading σ = None.
Proof.
  intros Hpre Hu Hfuel σ.
  destruct (firstReachableImage_run reachable (pre ++ u :: post) fuel Hfuel)
    as (Hl & Hi & Hh & Hr).
  fold σ in Hl, Hi, Hh, Hr.
  rewrite first_reachable_app in Hr by done.
  rewrite probe_history_app in Hh by done.
  rewrite requested_app in Hi by done.
  by split_and!.
Qed.

Lemma firstReachableImage_first_witness :
  let σ := firstReachableImage (λ url, bool_decide (url = "c.jpg"))
             ["a.jpg"; "b.jpg"; "c.jpg"; "d.jpg"; "e.jpg"] 5 in
  result σ = Fulfilled "c.jpg"
  ∧ history σ = [Requested "a.jpg"; Failed "a.jpg"; Requested "b.jpg"; Failed "b.jpg";
                 Requested "c.jpg"; Loaded "c.jpg"]
  ∧ index σ = 3
  ∧ loading σ = None.
Proof.
  apply (firstReachableImage_first (λ url, bool_decide (url = "c.jpg"))
           ["a.jpg"; "b.jpg"] "c.jpg" ["d.jpg"; "e.jpg"] 5).
  - repeat constructor.
  - reflexivity.
  - cbn. lia.
Defined.

(** C1, as the code has it.  Whatever loads and whatever fails, the
    promise is fulfilled once the events of the candidates have been
    delivered; it is never rejected.  When every candidate fails it is
    fulfilled with the last element of the list if that element is a
    non-empty string, and with the default path if the last element is the
    empty string or the list is empty. *)
Theorem firstReachableImage_settles (reachable : string → bool)
    (urls : list string) (fuel : nat) :
  length urls ≤ fuel →
  let σ := firstReachableImage reachable urls fuel in
  (∃ v, result σ = Fulfilled v)
  ∧ (∀ reason, result σ ≠ Rejected reason)
  ∧ result σ ≠ Pending
  ∧ loading σ = None
  ∧ (Forall (λ u, reachable u = false) urls →
       result σ = Fulfilled match last urls with
                            | Some u => if JS.truthy u then u else DEFAULT_IMG
                            | None => DEFAULT_IMG
                            end)
  ∧ (urls = [] → result σ = Fulfilled DEFAULT_IMG).
Proof.
  intros Hfuel σ.
  destruct (firstReachableImage_run reachable urls fuel Hfuel) as (Hl & _ & _ & Hr).
  fold σ in Hl, Hr. rewrite Hr. split_and!; try done.
  - eauto.
  - intros Hall. apply first_reachable_none in Hall. by rewrite Hall.
  - by intros ->.
Qed.

Lemma firstReachableImage_settles_witness :
  result (firstReachableImage (λ _, false) ["a.jpg"; "b.jpg"] 2) = Fulfilled "b.jpg".
Proof.
  apply (firstReachableImage_settles (λ _, false) ["a.jpg"; "b.jpg"] 2).
  - cbn. lia.
  - repeat constructor.
Defined.

(** The claim C1 fails where the last candidate is the empty string:
    every candidate fails, and the promise is fulfilled with the default
    path, which is not the last element of the list. *)
Lemma firstReachableImage_last_empty :
  Forall (λ u, (λ _ : string, false) u = false) ["a.jpg"; ""]
  ∧ last ["a.jpg"; ""] = Some ""
  ∧ result (firstReachableImage (λ _, false) ["a.jpg"; ""] 2) = Fulfilled DEFAULT_IMG
  ∧ Fulfilled DEFAULT_IMG ≠ Fulfilled "".
Proof. split_and!; [by repeat constructor|done|done|discriminate]. Qed.

(** C4, as the code has it.  The URL the promise is fulfilled with is an
    element of the list, except when every candidate fails and the list
    is empty or ends with the empty string: it is then the default path. *)
Theorem firstReachableImage_member (reachable : string → bool)
    (urls : list string) (fuel : nat) :
  length urls ≤ fuel →
  ∃ v, result (firstReachableImage reachable urls fuel) = Fulfilled v
       ∧ (v ∈ urls
          ∨ (v = DEFAULT_IMG
             ∧ Forall (λ u, reachable u = false) urls
             ∧ (urls = [] ∨ last urls = Some ""))).
Proof.
  intros Hfuel.
  destruct (firstReachableImage_run reachable urls fuel Hfuel) as (_ & _ & _ & Hr).
  eexists. split; [exact Hr|].
  destruct (first_reachable reachable urls) as [u|] eqn:Hfirst; cbn [default].
  - left. by apply first_reachable_elem in Hfirst as [? _].
  - apply first_reachable_none in Hfirst. unfold or_default_img.
    destruct (last urls) as [u|] eqn:Hlast.
    + destruct (JS.truthy u) eqn:Hu.
      * left. rewrite last_lookup in Hlast. by eapply list_elem_of_lookup_2.
      * right. apply JSFacts.truthy_false in Hu as ->. by eauto.
    + right. apply last_None in Hlast. by eauto.
Qed.

Lemma firstReachableImage_member_witness :
  ∃ v, result (firstReachableImage (λ url, bool_decide (url = "b.jpg"))
                 ["a.jpg"; "b.jpg"] 2) = Fulfilled v
       ∧ (v ∈ ["a.jpg"; "b.jpg"]
          ∨ (v = DEFAULT_IMG
             ∧ Forall (λ u, (λ url, bool_decide (url = "b.jpg")) u = false)
                      ["a.jpg"; "b.jpg"]
             ∧ (["a.jpg"; "b.jpg"] = [] ∨ last ["a.jpg"; "b.jpg"] = Some ""))).
Proof.
  apply (firstReachableImage_member (λ url, bool_decide (url = "b.jpg"))
           ["a.jpg"; "b.jpg"] 2).
  cbn. lia.
Defined.

(** The claim C4 fails on the one-element list holding the empty string:
    the list is not empty, its candidate fails, and the promise is
    fulfilled with the default path, which is not an element of the list. *)
Lemma firstReachableImage_not_member :
  [""] ≠ []
  ∧ result (firstReachableImage (λ _, false) [""] 1) = Fulfilled DEFAULT_IMG
  ∧ DEFAULT_IMG ∉ [""].
Proof.
  split_and!; [done|done|].
  intros Hin. apply list_elem_of_singleton in Hin. discriminate Hin.
Qed.


(** ** fetchYAML *)

Lemma fetchYAML_eval (env : environment) (path : string) (c : console) :
  fetchYAML env path c
  = let failed e := (Fulfilled empty_object, c ++ [("Error fetching YAML:", e)]) in
    match fetch env path with
    | inl e => failed e
    | inr r =>
        if ok r then
          match body r with
          | inl e => failed e
          | inr text =>
              match jsyaml_load env text with
              | inl e => failed e
              | inr doc => (Fulfilled (js_or doc empty_object), c)
              end
          end
        else failed ("Failed to fetch " +:+ path +:+ ": " +:+ statusText r)
    end.
Proof.
  unfold fetchYAML, async, fetchYAML_body, try_catch, mbind, M_bind, settle,
    throw, mret, M_ret, console_error.
  destruct (fetch env path) as [e|r]; [done|].
  destruct (ok r); [|done]. cbn [negb].
  destruct (body r) as [e|text]; [done|].
  by destruct (jsyaml_load env text) as [e|doc].
Qed.

Lemma fetchYAML_failure (env : environment) (path : string) (c : console)
    (e : string) :
  fetch_failure env path e →
  fetchYAML env path c = (Fulfilled empty_object, c ++ [("Error fetching YAML:", e)]).
Proof.
  rewrite fetchYAML_eval.
  intros [e' H1|r H1 H2|r e' H1 H2 H3|r text e' H1 H2 H3 H4];
    by rewrite H1, ?H2, ?H3, ?H4.
Qed.

Lemma fetchYAML_success (env : environment) (path : string) (c : console)
    (doc : value) :
  fetch_decodes env path doc →
  fetchYAML env path c = (Fulfilled (js_or doc empty_object), c).
Proof.
  rewrite fetchYAML_eval. intros (r & text & H1 & H2 & H3 & H4).
  by rewrite H1, H2, H3, H4.
Qed.

Lemma fetch_outcome (env : environment) (path : string) :
  (∃ e, fetch_failure env path e) ∨ (∃ doc, fetch_decodes env path doc).
Proof.
  destruct (fetch env path) as [e|r] eqn:H1; [left; eauto using fetch_failure|].
  destruct (ok r) eqn:H2; [|left; eauto using fetch_failure].
  destruct (body r) as [e|text] eqn:H3; [left; eauto using fetch_failure|].
  destruct (jsyaml_load env text) as [e|doc] eqn:H4; [left; eauto using fetch_failure|].
  right. exists doc, r, text. done.
Qed.

(** C7. The promise returned by [fetchYAML] is always fulfilled and never
    rejected.  When the request is rejected, the response is not ok, the
    body cannot be read or the text is not valid YAML, the error is
    written to the console and the promise is fulfilled with the empty
    mapping; otherwise nothing is written. *)
Theorem fetchYAML_never_rejects (env : environment) (path : string) (c : console) :
  (∃ v c', fetchYAML env path c = (Fulfilled v, c'))
  ∧ (∀ reason, (fetchYAML env path c).1 ≠ Rejected reason)
  ∧ (fetchYAML env path c).1 ≠ Pending
  ∧ (∀ e, fetch_failure env path e →
          fetchYAML env path c
          = (Fulfilled empty_object, c ++ [("Error fetching YAML:", e)]))
  ∧ ((∃ e, fetch_failure env path e)
     ∨ (∃ doc, fetch_decodes env path doc
               ∧ fetchYAML env path c = (Fulfilled (js_or doc empty_object), c))).
Proof.
  assert (∃ v c', fetchYAML env path c = (Fulfilled v, c')) as (v & c' & Hv).
  { destruct (fetch_outcome env path) as [[e He]|[doc Hdoc]].
    - rewrite (fetchYAML_failure _ _ _ _ He). eauto.
    - rewrite (fetchYAML_success _ _ _ _ Hdoc). eauto. }
  split_and!.
  - eauto.
  - by rewrite Hv.
  - by rewrite Hv.
  - intros e. apply fetchYAML_failure.
  - destruct (fetch_outcome env path) as [[e He]|[doc Hdoc]]; [left; eauto|].
    right. exists doc. split; [done|]. by apply fetchYAML_success.
Qed.

Lemma fetchYAML_never_rejects_witness :
  fetchYAML {| fetch := λ _, inl "TypeError: Failed to fetch";
               jsyaml_load := λ _, inr VNull |} "/data/roster.yml" []
  = (Fulfilled empty_object,
     [("Error fetching YAML:", "TypeError: Failed to fetch")]).
Proof.
  apply (fetchYAML_never_rejects
           {| fetch := λ _, inl "TypeError: Failed to fetch";
              jsyaml_load := λ _, inr VNull |} "/data/roster.yml" []).
  by apply request_rejected.
Defined.

(** C10. When the fetch succeeds and the text decodes to a falsy value
    (an empty document, which decodes to [undefined], or [null], [false]
    or [0]), the promise is fulfilled with the empty mapping: the same
    value as after any failed fetch. *)
Theorem fetchYAML_falsy_document (env : environment) (path : string)
    (c : console) (doc : value) :
  fetch_decodes env path doc →
  ToBoolean doc = false →
  fetchYAML env path c = (Fulfilled empty_object, c)
  ∧ (∀ env' path' c' e,
       fetch_failure env' path' e →
       (fetchYAML env' path' c').1 = (fetchYAML env path c).1)
  ∧ Forall (λ d, ToBoolean d = false) [VUndefined; VNull; VBool false; VNum 0].
Proof.
  intros Hdoc Hfalsy.
  assert (fetchYAML env path c = (Fulfilled empty_object, c)) as Hv.
  { rewrite (fetchYAML_success _ _ _ _ Hdoc). unfold js_or. by rewrite Hfalsy. }
  split_and!; [done| |by repeat constructor].
  intros env' path' c' e He. by rewrite Hv, (fetchYAML_failure _ _ _ _ He).
Qed.

Lemma fetchYAML_falsy_document_witness :
  fetchYAML {| fetch := λ _, inr {| ok := true; statusText := "OK"; body := inr "" |};
               jsyaml_load := λ _, inr VUndefined |} "/data/roster.yml" []
  = (Fulfilled empty_object, []).
Proof.
  apply (fetchYAML_falsy_document
           {| fetch := λ _, inr {| ok := true; statusText := "OK"; body := inr "" |};
              jsyaml_load := λ _, inr VUndefined |} "/data/roster.yml" [] VUndefined).
  - eexists _, _. repeat split.
  - reflexivity.
Defined.

(** ** Sample runs *)

Example imageCandidates_years :
  imageCandidates "jane" (Some {| photo := Some "/roster/jane.png" |})
                  (Some ["2023"]) "/roster" (Some "/years") None
  = ["/roster/jane.png"; "/roster/jane.jpg"; "/roster/jane.jpeg";
     "/years/2023/jane.jpg"; "/years/2023/jane.png"; "/years/2023/jane.jpeg";
     "/staff/images/cta-default.jpg"].
Proof. reflexivity. Qed.

Example imageCandidates_empty_slug :
  imageCandidates "" None None "/roster" None None
  = ["/roster/.jpg"; "/roster/.png"; "/roster/.jpeg"; "/staff/images/cta-default.jpg"].
Proof. reflexivity. Qed.

Example parseInterests_mixed (B : builtins) :
  parseInterests B (VStr " Stars|stars ;; Dust
 gas ") = ["Stars"; "Dust"; "gas"].
Proof. by rewrite parseInterests_ascii_string. Qed.

Example parseInterests_array_values :
  parseInterests ascii_builtins
    (VArr [VStr " x "; VNum 42; VNull; VStr ""; VStr "NULL"])
  = ["x"; "42"; "null"].
Proof. reflexivity. Qed.

Example firstReachableImage_all_fail :
  let σ := firstReachableImage (λ _, false) ["a.jpg"; "b.jpg"] 2 in
  result σ = Fulfilled "b.jpg"
  ∧ history σ = [Requested "a.jpg"; Failed "a.jpg"; Requested "b.jpg"; Failed "b.jpg"].
Proof. by split. Qed.

Example firstReachableImage_empty :
  result (firstReachableImage (λ _, true) [] 0) = Fulfilled DEFAULT_IMG.
Proof. reflexivity. Qed.

Example fetchYAML_not_found :
  fetchYAML {| fetch := λ _, inr {| ok := false; statusText := "Not Found";
                                    body := inr "" |};
               jsyaml_load := λ _, inr VNull |} "/data/roster.yml" []
  = (Fulfilled empty_object,
     [("Error fetching YAML:", "Failed to fetch /data/roster.yml: Not Found")]).
Proof. reflexivity. Qed.

(** * Further properties *)

(** ** formatNameFromSlug, letter by letter *)

Lemma join_cons_char (sep : string) (c : ascii) (x : string) (a : list string) :
  JS.join sep (String c x :: a) = String c (JS.join sep (x :: a)).
Proof. by destruct a. Qed.

Lemma join_tokens_letters (s : string) (word_start : bool) :
  match JS.split (JS.char_is "-") s with
  | [] => ""
  | t :: ts =>
      JS.join " " ((if word_start then title_case t else JS.ascii_toLowerCase t)
                   :: (title_case <$> ts))
  end = name_letters word_start s.
Proof.
  revert word_start. induction s as [|c s IH]; intros word_start.
  - by destruct word_start.
  - cbn [JS.split name_letters].
    pose proof (JSFacts.split_not_nil (JS.char_is "-") s) as Hne.
    destruct (JS.char_is "-" c) eqn:Hc.
    + specialize (IH true).
      destruct (JS.split (JS.char_is "-") s) as [|t ts]; [done|].
      assert ((if word_start then title_case "" else JS.ascii_toLowerCase "") = "") as ->
        by by destruct word_start.
      cbn [fmap list_fmap]. rewrite JSFacts.join_cons, IH. done.
    + specialize (IH false).
      destruct (JS.split (JS.char_is "-") s) as [|t ts]; [done|].
      destruct word_start; cbn [title_case JS.ascii_toLowerCase JS.map_chars];
        by rewrite join_cons_char, <- IH.
Qed.

Lemma formatNameFromSlug_letters (B : builtins) (s : string) :
  JS.is_ascii s = true → formatNameFromSlug B s = name_letters true s.
Proof.
  intros Hs. rewrite formatNameFromSlug_unfold, <- join_tokens_letters by done.
  by destruct (JS.split (JS.char_is "-") s).
Qed.

Lemma case_chars_not_hyphen (c : ascii) :
  JS.char_is "-" c = false →
  JS.char_is "-" (JS.upper_char c) = false ∧ JS.char_is "-" (JS.lower_char c) = false.
Proof. by destruct c as [[] [] [] [] [] [] [] []]. Qed.

Lemma name_letters_shape (s : string) (word_start : bool) :
  String.length (name_letters word_start s) = String.length s
  ∧ Str.count_chars (JS.char_is "-") (name_letters word_start s) = 0.
Proof.
  revert word_start. induction s as [|c s IH]; intros word_start; [done|].
  cbn [name_letters]. destruct (JS.char_is "-" c) eqn:Hc.
  - destruct (IH true) as [Hl Hn]. cbn. by rewrite Hl, Hn.
  - destruct (IH false) as [Hl Hn].
    destruct (case_chars_not_hyphen c Hc) as [Hu Hlo].
    cbn [String.length Str.count_chars]. rewrite Hl, Hn.
    by destruct word_start; rewrite ?Hu, ?Hlo.
Qed.

(** X1. For a slug of ASCII characters, the display name is the slug read
    letter by letter: each hyphen becomes one space, the first letter and
    every letter that follows a hyphen is put in upper case, every other
    letter in lower case.  It has as many characters as the slug, and no
    hyphen is left in it. *)
Theorem formatNameFromSlug_letterwise (B : builtins) (slug : string) :
  JS.is_ascii slug = true →
  formatNameFromSlug B slug = name_letters true slug
  ∧ String.length (formatNameFromSlug B slug) = String.length slug
  ∧ Str.count_chars (JS.char_is "-") (formatNameFromSlug B slug) = 0.
Proof.
  intros Hs. rewrite formatNameFromSlug_letters by done.
  split; [done|]. apply name_letters_shape.
Qed.

Lemma formatNameFromSlug_letterwise_witness :
  formatNameFromSlug ascii_builtins "mARY-o'NEIL--x" = name_letters true "mARY-o'NEIL--x"
  ∧ String.length (formatNameFromSlug ascii_builtins "mARY-o'NEIL--x")
    = String.length "mARY-o'NEIL--x"
  ∧ Str.count_chars (JS.char_is "-") (formatNameFromSlug ascii_builtins "mARY-o'NEIL--x")
    = 0.
Proof.
  apply (formatNameFromSlug_letterwise ascii_builtins "mARY-o'NEIL--x"). reflexivity.
Defined.

Lemma name_letters_case (f : ascii → ascii) (s : string) (word_start : bool) :
  (∀ c, JS.char_is "-" (f c) = JS.char_is "-" c
        ∧ JS.upper_char (f c) = JS.upper_char c
        ∧ JS.lower_char (f c) = JS.lower_char c) →
  name_letters word_start (JS.map_chars f s) = name_letters word_start s.
Proof.
  intros Hf. revert word_start. induction s as [|c s IH]; intros word_start; [done|].
  cbn [JS.map_chars name_letters]. destruct (Hf c) as (-> & -> & ->).
  by rewrite !IH.
Qed.

Lemma is_ascii_map_chars (f : ascii → ascii) (s : string) :
  (∀ c, JS.is_ascii_char c = true → JS.is_ascii_char (f c) = true) →
  JS.is_ascii s = true → JS.is_ascii (JS.map_chars f s) = true.
Proof.
  intros Hf. induction s as [|c s IH]; [done|]. cbn [JS.map_chars].
  rewrite !AsciiFacts.is_ascii_cons. intros [Hc Hs]. auto.
Qed.

(** X2. For a slug of ASCII characters the display name does not depend
    on the case of the slug: the slug written in upper case, or in lower
    case, gives the same name. *)
Theorem formatNameFromSlug_case_insensitive (B : builtins) (slug : string) :
  JS.is_ascii slug = true →
  formatNameFromSlug B (toUpperCase B slug) = formatNameFromSlug B slug
  ∧ formatNameFromSlug B (toLowerCase B slug) = formatNameFromSlug B slug.
Proof.
  intros Hs.
  rewrite (toUpperCase_ascii B slug Hs), (toLowerCase_ascii B slug Hs).
  rewrite !formatNameFromSlug_letters; try done.
  - split; apply name_letters_case; by intros [[] [] [] [] [] [] [] []].
  - apply is_ascii_map_chars; [|done]. by intros [[] [] [] [] [] [] [] []].
  - apply is_ascii_map_chars; [|done]. by intros [[] [] [] [] [] [] [] []].
Qed.

Lemma formatNameFromSlug_case_insensitive_witness :
  formatNameFromSlug ascii_builtins (toUpperCase ascii_builtins "Jane-doe")
  = formatNameFromSlug ascii_builtins "Jane-doe"
  ∧ formatNameFromSlug ascii_builtins (toLowerCase ascii_builtins "Jane-doe")
    = formatNameFromSlug ascii_builtins "Jane-doe".
Proof.
  apply (formatNameFromSlug_case_insensitive ascii_builtins "Jane-doe"). reflexivity.
Defined.

(** ** parseInterests: round trips and edge cases *)

Lemma first_by_fixed {K : Type} `{EqDecision K} (key : string → K) (l : list string) :
  NoDup (key <$> l) → first_by key l = l.
Proof.
  induction l as [|x l IH]; [done|]. cbn [fmap list_fmap first_by].
  intros [Hx Hl]%NoDup_cons. rewrite (IH Hl). f_equal.
  apply filter_all, Forall_forall. intros y Hy Heq.
  apply Hx. rewrite <- Heq. by apply list_elem_of_fmap_2.
Qed.

Lemma parseInterests_items (B : builtins) (v : value) :
  ∃ items, parseInterests B v = first_seen B items.
Proof.
  unfold parseInterests. destruct (ToBoolean v); cbn [negb]; [|by exists []].
  rewrite Array_filter_unseen_empty. eauto.
Qed.

Lemma parseInterests_NoDup (B : builtins) (v : value) :
  NoDup (toLowerCase B <$> parseInterests B v).
Proof.
  destruct (parseInterests_items B v) as [items ->]. apply first_by_NoDup.
Qed.

(** Parsing a list of entries that are already clean changes nothing. *)
Lemma parse_clean_entries (B : builtins) (out : list string) :
  Forall (λ x, x ≠ "" ∧ trim B x = x
               ∧ Str.head_space x = false ∧ Str.last_space x = false) out →
  NoDup (toLowerCase B <$> out) →
  first_seen B (filter (λ e, e ≠ "") (trim B <$> out)) = out.
Proof.
  intros Hclean Hnodup.
  assert (trim B <$> out = out) as ->.
  { rewrite <- (list_fmap_id out) at 2. apply list_fmap_ext.
    intros i x Hx. by eapply Forall_lookup_1 in Hclean as (_ & Ht & _). }
  rewrite filter_all.
  - by apply first_by_fixed.
  - eapply Forall_impl; [done|]. by intros x [? _].
Qed.

(** X3. Parsing is idempotent: the list returned, given back as an
    array, is returned unchanged. *)
Theorem parseInterests_idempotent (B : builtins) (v : value) :
  parseInterests B (VArr (VStr <$> parseInterests B v)) = parseInterests B v.
Proof.
  rewrite parseInterests_array, <- list_fmap_compose.
  assert ((λ x, trim B (ToString B x)) ∘ VStr = trim B) as -> by done.
  apply parse_clean_entries; [apply parseInterests_entries|apply parseInterests_NoDup].
Qed.

Lemma all_chars_app (p : ascii → bool) (s t : string) :
  Str.all_chars p (s +:+ t) = Str.all_chars p s && Str.all_chars p t.
Proof.
  induction s as [|c s IH]; [done|].
  rewrite JSFacts.app_cons. cbn [Str.all_chars]. by rewrite IH, andb_assoc.
Qed.

(** Trimming keeps a part of the string, so it brings in no character. *)
Lemma all_chars_trim (B : builtins) (p : ascii → bool) (s : string) :
  Str.all_chars p s = true → Str.all_chars p (trim B s) = true.
Proof.
  destruct (trim_split B s) as (a & b & Heq & _). rewrite Heq at 1.
  rewrite !all_chars_app. by intros [_ [? _]%andb_true_iff]%andb_true_iff.
Qed.

(** A piece without separator is not cut. *)
Lemma split_whole (f : ascii → bool) (s : string) :
  Str.all_chars (λ c, negb (f c)) s = true → JS.split f s = [s].
Proof.
  induction s as [|c s IH]; [done|]. cbn.
  intros [Hc Hs]%andb_true_iff. apply negb_true_iff in Hc. by rewrite Hc, IH.
Qed.

Lemma split_app_sep (f : ascii → bool) (piece : string) (d : ascii) (rest : string) :
  Str.all_chars (λ c, negb (f c)) piece = true → f d = true →
  JS.split f (piece +:+ String d rest) = piece :: JS.split f rest.
Proof.
  intros Hp Hd. induction piece as [|c piece IH].
  - rewrite JSFacts.app_empty_l. cbn. by rewrite Hd.
  - cbn in Hp. apply andb_true_iff in Hp as [Hc Hp]. apply negb_true_iff in Hc.
    rewrite JSFacts.app_cons. cbn [JS.split]. by rewrite Hc, IH.
Qed.

(** Joining pieces that hold no separator and splitting again gives the
    pieces back. *)
Lemma split_join (f : ascii → bool) (d : ascii) (pieces : list string) :
  pieces ≠ [] → f d = true →
  Forall (λ piece, Str.all_chars (λ c, negb (f c)) piece = true) pieces →
  JS.split f (JS.join (String d "") pieces) = pieces.
Proof.
  intros Hne Hd Hall. induction Hall as [|p ps Hp Hps IH]; [done|].
  destruct ps as [|q ps]; [by apply split_whole|].
  rewrite JSFacts.join_cons, JSFacts.app_cons, JSFacts.app_empty_l.
  rewrite split_app_sep by done. by rewrite IH.
Qed.

Lemma parseInterests_string_pieces (B : builtins) (s : string) :
  Forall (λ x, Str.all_chars (λ c, negb (is_delim c)) x = true)
         (parseInterests B (VStr s)).
Proof.
  rewrite parseInterests_string. apply Forall_forall. intros x Hx.
  pose proof (elem_of_sublist _ _ _ Hx (first_by_sublist _ _)) as Hx'.
  apply list_elem_of_filter in Hx' as [_ Hx'].
  apply list_elem_of_fmap in Hx' as (piece & -> & Hpiece).
  apply all_chars_trim.
  by eapply (proj1 (Forall_forall _ _) (JSFacts.split_pieces is_delim s)).
Qed.

(** X4. The entries parsed from a string, joined by a comma, a semicolon,
    a vertical bar or a newline and parsed again, are the same entries. *)
Theorem parseInterests_join_roundtrip (B : builtins) (s : string) (d : ascii) :
  is_delim d = true →
  parseInterests B (VStr (JS.join (String d "") (parseInterests B (VStr s))))
  = parseInterests B (VStr s).
Proof.
  intros Hd. set (out := parseInterests B (VStr s)).
  rewrite parseInterests_string.
  destruct (decide (out = [])) as [->|Hne].
  - cbn [JS.join JS.split fmap list_fmap]. rewrite trim_empty.
    by rewrite filter_cons_False by (intros Hn; by apply Hn).
  - rewrite (split_join is_delim d out Hne Hd (parseInterests_string_pieces B s)).
    apply parse_clean_entries; [apply parseInterests_entries|apply parseInterests_NoDup].
Qed.

Lemma parseInterests_join_roundtrip_witness :
  parseInterests ascii_builtins
    (VStr (JS.join ";" (parseInterests ascii_builtins (VStr " Stars, dust ,STARS|gas"))))
  = parseInterests ascii_builtins (VStr " Stars, dust ,STARS|gas").
Proof.
  apply (parseInterests_join_roundtrip ascii_builtins " Stars, dust ,STARS|gas" ";").
  reflexivity.
Defined.

Lemma split_all_chars (f p : ascii → bool) (s : string) :
  Str.all_chars (λ c, f c || p c) s = true →
  Forall (λ piece, Str.all_chars p piece = true) (JS.split f s).
Proof.
  induction s as [|c s IH]; [by repeat constructor|]. cbn.
  intros [Hc Hs]%andb_true_iff. specialize (IH Hs).
  pose proof (JSFacts.split_not_nil f s) as Hne.
  destruct (f c) eqn:Hf; [by constructor|].
  destruct (JS.split f s) as [|piece pieces]; [done|].
  inversion IH as [|?? Hpiece Hpieces]; subst.
  constructor; [|done]. cbn in *. by rewrite Hc, Hpiece.
Qed.

Lemma trim_spaces (B : builtins) (s : string) :
  Str.all_chars Ascii.is_space s = true → trim B s = "".
Proof.
  intros Hs. rewrite (trim_ascii B) by by apply AsciiFacts.all_space_ascii.
  by apply AsciiFacts.ascii_trim_spaces.
Qed.

(** X5. A string made of delimiters and white space only holds no entry:
    the result is the empty list. *)
Theorem parseInterests_blank (B : builtins) (s : string) :
  Str.all_chars (λ c, is_delim c || Ascii.is_space c) s = true →
  parseInterests B (VStr s) = [].
Proof.
  intros Hs. rewrite parseInterests_string.
  assert (filter (λ e, e ≠ "") (trim B <$> JS.split is_delim s) = []) as ->; [|done].
  pose proof (split_all_chars is_delim Ascii.is_space s Hs) as Hpieces.
  induction Hpieces as [|piece pieces Hp _ IH]; [done|].
  cbn [fmap list_fmap]. rewrite (trim_spaces B piece Hp).
  by rewrite filter_cons_False by (intros Hn; by apply Hn).
Qed.

Lemma parseInterests_blank_witness :
  parseInterests ascii_builtins (VStr " ,; |
 ,") = [].
Proof. apply parseInterests_blank. reflexivity. Defined.

(** X6. An element of an array gives at most one entry (it is not cut at
    delimiters), and a string gives at most one entry more than it has
    delimiters. *)
Theorem parseInterests_length (B : builtins) :
  (∀ a : list value, length (parseInterests B (VArr a)) ≤ length a)
  ∧ (∀ s : string,
       length (parseInterests B (VStr s)) ≤ S (Str.count_chars is_delim s))
  ∧ parseInterests B (VArr [VStr "a,b"]) = ["a,b"]
  ∧ parseInterests B (VStr "a,b") = ["a"; "b"].
Proof.
  split_and!.
  - intros a. rewrite parseInterests_array.
    etrans; [apply sublist_length, first_by_sublist|].
    etrans; [apply sublist_length, sublist_filter|]. by rewrite length_fmap.
  - intros s. rewrite parseInterests_string.
    etrans; [apply sublist_length, first_by_sublist|].
    etrans; [apply sublist_length, sublist_filter|].
    by rewrite length_fmap, JSFacts.split_length.
  - change (VArr [VStr "a,b"]) with (VArr (VStr <$> ["a,b"])).
    by rewrite parseInterests_ascii_array by by repeat constructor.
  - by rewrite parseInterests_ascii_string.
Qed.

(** ** imageCandidates: order and size *)

(** X8. Without a year base path ([null], omitted, or the empty string)
    the years are ignored: the result is the one obtained without years. *)
Theorem imageCandidates_no_base_path (slug : string) (p : option person)
    (years : option (list string)) (imgRoster : string)
    (imgYears defaultImg : option string) :
  imgYears = None ∨ imgYears = Some "" →
  imageCandidates slug p years imgRoster imgYears defaultImg
  = imageCandidates slug p None imgRoster None defaultImg.
Proof.
  intros Hy. rewrite !imageCandidates_unfold, !candidates_before_default_parts.
  by destruct Hy as [-> | ->].
Qed.

Lemma imageCandidates_no_base_path_witness :
  imageCandidates "jane" None (Some ["2023"; "2024"]) "/roster" (Some "") None
  = imageCandidates "jane" None None "/roster" None None.
Proof.
  apply (imageCandidates_no_base_path "jane" None (Some ["2023"; "2024"])
           "/roster" (Some "") None).
  by right.
Defined.

Lemma roster_candidates_NoDup (imgRoster slug : string) :
  NoDup (roster_candidates imgRoster slug).
Proof.
  unfold roster_candidates. apply NoDup_fmap_2_strong.
  - intros x y _ _ Heq. by repeat apply String.app_inj in Heq.
  - unfold exts. by apply (bool_decide_unpack _).
Qed.

Lemma imageCandidates_elem (slug : string) (p : option person)
    (years : option (list string)) (imgRoster : string)
    (imgYears defaultImg : option string) (u : string) :
  u ∈ imageCandidates slug p years imgRoster imgYears defaultImg
  ↔ u ≠ "" ∧ u ∈ candidates_before_default slug p (or_default [] years)
                     imgRoster imgYears ++ [or_default DEFAULT_IMG defaultImg].
Proof. by rewrite imageCandidates_unfold, first_occurrences_elem, list_elem_of_filter. Qed.

Lemma roster_in_imageCandidates (slug : string) (p : option person)
    (years : option (list string)) (imgRoster : string)
    (imgYears defaultImg : option string) (u : string) :
  u ∈ roster_candidates imgRoster slug →
  u ∈ imageCandidates slug p years imgRoster imgYears defaultImg.
Proof.
  intros Hu. apply imageCandidates_elem. split.
  - pose proof (candidates_before_default_truthy slug None [] imgRoster None) as Hne.
    rewrite candidates_before_default_parts in Hne. cbn [photo_candidates app] in Hne.
    rewrite app_nil_r in Hne. by eapply (proj1 (Forall_forall _ _) Hne).
  - rewrite candidates_before_default_parts, !elem_of_app. auto.
Qed.

Lemma year_candidates_length (dir : string) (years : list string) (slug : string) :
  length (year_candidates dir years slug) = 3 * length years.
Proof.
  unfold year_candidates. induction years as [|y years IH]; [done|].
  cbn [mbind list_bind]. rewrite length_app, IH. cbn. lia.
Qed.

(** X9. The list returned is never empty: it holds the three
    roster-folder candidates, which are distinct, and at most two more
    entries (photo and fallback) plus three per year. *)
Theorem imageCandidates_size (slug : string) (p : option person)
    (years : option (list string)) (imgRoster : string)
    (imgYears defaultImg : option string) :
  let out := imageCandidates slug p years imgRoster imgYears defaultImg in
  3 ≤ length out
  ∧ length out ≤ 5 + 3 * length (or_default [] years)
  ∧ NoDup (roster_candidates imgRoster slug)
  ∧ Forall (λ u, u ∈ out) (roster_candidates imgRoster slug).
Proof.
  intros out.
  assert (Forall (λ u, u ∈ out) (roster_candidates imgRoster slug)) as Hin.
  { apply Forall_forall. intros u. apply roster_in_imageCandidates. }
  split_and!; [| |apply roster_candidates_NoDup|done].
  - change 3 with (length (roster_candidates imgRoster slug)).
    apply submseteq_length, NoDup_submseteq; [apply roster_candidates_NoDup|].
    by apply Forall_forall.
  - subst out. rewrite imageCandidates_unfold.
    etrans; [apply sublist_length, first_by_sublist|].
    etrans; [apply sublist_length, sublist_filter|].
    rewrite candidates_before_default_parts, !length_app.
    assert (length (photo_candidates p) ≤ 1) as Hp.
    { destruct p as [[[ph|]]|]; cbn; try lia. destruct (JS.truthy ph); cbn; lia. }
    change (length (roster_candidates imgRoster slug)) with 3. cbn [length].
    destruct imgYears as [dir|]; [|cbn; lia].
    destruct (JS.truthy dir); [|cbn; lia].
    rewrite year_candidates_length. lia.
Qed.

(** X10. A non-empty explicit photo is the first candidate; without one,
    the first candidate is the [.jpg] of the roster folder. *)
Theorem imageCandidates_first (slug : string) (years : option (list string))
    (imgRoster : string) (imgYears defaultImg : option string) :
  (∀ ph, ph ≠ "" →
         head (imageCandidates slug (Some {| photo := Some ph |}) years
                               imgRoster imgYears defaultImg) = Some ph)
  ∧ (∀ p, photo_candidates p = [] →
          head (imageCandidates slug p years imgRoster imgYears defaultImg)
          = Some (imgRoster +:+ "/" +:+ slug +:+ ".jpg")).
Proof.
  split.
  - intros ph Hph. rewrite imageCandidates_unfold, candidates_before_default_parts.
    cbn [photo_candidates]. apply JSFacts.truthy_true in Hph as Ht. rewrite Ht.
    cbn [app]. by rewrite filter_cons_True by done.
  - intros p Hp. rewrite imageCandidates_unfold, candidates_before_default_parts, Hp.
    cbn [app roster_candidates exts fmap list_fmap].
    rewrite filter_cons_True; [done|]. by apply app_not_empty_r.
Qed.

Lemma imageCandidates_first_witness :
  head (imageCandidates "jane" (Some {| photo := Some "/img/p.png" |}) None
                        "/roster" None None) = Some "/img/p.png"
  ∧ head (imageCandidates "jane" (Some {| photo := Some "" |}) None
                          "/roster" None None) = Some "/roster/jane.jpg".
Proof.
  split.
  - by apply (imageCandidates_first "jane" None "/roster" None None).
  - by apply (imageCandidates_first "jane" None "/roster" None None).
Defined.

(** ** The probe over the candidates of a profile *)

Lemma imageCandidates_not_nil (slug : string) (p : option person)
    (years : option (list string)) (imgRoster : string)
    (imgYears defaultImg : option string) :
  imageCandidates slug p years imgRoster imgYears defaultImg ≠ [].
Proof.
  intros Hnil.
  pose proof (roster_in_imageCandidates slug p years imgRoster imgYears defaultImg
                (imgRoster +:+ "/" +:+ slug +:+ ".jpg")) as Hin.
  rewrite Hnil in Hin. eapply not_elem_of_nil, Hin. by left.
Qed.

Lemma imageCandidates_last (slug : string) (p : option person)
    (years : option (list string)) (imgRoster : string)
    (imgYears defaultImg : option string) :
  ∃ u, last (imageCandidates slug p years imgRoster imgYears defaultImg) = Some u
       ∧ u ≠ ""
       ∧ u ∈ imageCandidates slug p years imgRoster imgYears defaultImg.
Proof.
  destruct (last _) as [u|] eqn:Hlast.
  - exists u. pose proof (last_Some_elem_of _ _ Hlast) as Hin.
    split_and!; [done| |done]. by apply imageCandidates_elem in Hin as [? _].
  - apply last_None in Hlast. by apply imageCandidates_not_nil in Hlast.
Qed.

(** X11. Probing the candidates built by [imageCandidates] always ends with
    one of those candidates, whatever loads and whatever fallback is given:
    the hard-coded default of the probe is never needed. *)
Theorem probe_of_candidates_member (reachable : string → bool) (slug : string)
    (p : option person) (years : option (list string)) (imgRoster : string)
    (imgYears defaultImg : option string) (fuel : nat) :
  let urls := imageCandidates slug p years imgRoster imgYears defaultImg in
  length urls ≤ fuel →
  ∃ v, result (firstReachableImage reachable urls fuel) = Fulfilled v ∧ v ∈ urls.
Proof.
  intros urls Hfuel.
  destruct (firstReachableImage_run reachable urls fuel Hfuel) as (_ & _ & _ & Hr).
  eexists. split; [exact Hr|].
  destruct (first_reachable reachable urls) as [u|] eqn:Hfirst; cbn [default].
  - by apply first_reachable_elem in Hfirst as [? _].
  - destruct (imageCandidates_last slug p years imgRoster imgYears defaultImg)
      as (u & Hlast & Hne & Hin).
    fold urls in Hlast, Hin. rewrite Hlast. cbn [or_default_img].
    apply JSFacts.truthy_true in Hne. by rewrite Hne.
Qed.

Lemma probe_of_candidates_member_witness :
  ∃ v, result (firstReachableImage (λ _, false)
                 (imageCandidates "jane" None None "/roster" None (Some "")) 3)
       = Fulfilled v
       ∧ v ∈ imageCandidates "jane" None None "/roster" None (Some "").
Proof.
  apply (probe_of_candidates_member (λ _, false) "jane" None None "/roster" None
           (Some "") 3).
  vm_compute. lia.
Defined.

(** X12. When no candidate of a profile loads, the probe ends with the
    last candidate of the list; that is the fallback whenever the
    fallback is not empty and differs from every candidate generated
    before it. *)
Theorem probe_of_candidates_exhausted (reachable : string → bool) (slug : string)
    (p : option person) (years : option (list string)) (imgRoster : string)
    (imgYears defaultImg : option string) (fuel : nat) :
  let urls := imageCandidates slug p years imgRoster imgYears defaultImg in
  let fallback := or_default DEFAULT_IMG defaultImg in
  length urls ≤ fuel →
  Forall (λ u, reachable u = false) urls →
  ∃ u, last urls = Some u
       ∧ result (firstReachableImage reachable urls fuel) = Fulfilled u
       ∧ (fallback ≠ "" →
          fallback ∉ candidates_before_default slug p (or_default [] years)
                       imgRoster imgYears →
          u = fallback).
Proof.
  intros urls fallback Hfuel Hall.
  destruct (firstReachableImage_run reachable urls fuel Hfuel) as (_ & _ & _ & Hr).
  apply first_reachable_none in Hall. rewrite Hall in Hr. cbn [default] in Hr.
  destruct (imageCandidates_last slug p years imgRoster imgYears defaultImg)
    as (u & Hlast & Hne & Hin).
  fold urls in Hlast, Hin. exists u. split_and!; [done| |].
  - rewrite Hr, Hlast. cbn [or_default_img].
    apply JSFacts.truthy_true in Hne. by rewrite Hne.
  - intros Hf Hfresh. subst urls. rewrite imageCandidates_unfold in Hlast.
    fold fallback in Hlast.
    rewrite filter_app, filter_cons_True, filter_nil in Hlast by done.
    unfold first_occurrences in Hlast. rewrite first_by_app in Hlast.
    cbn [first_by] in Hlast. rewrite filter_nil, filter_cons_True in Hlast.
    + rewrite filter_nil, last_snoc in Hlast. congruence.
    + rewrite list_fmap_id. cbn. intros [_ Hf']%list_elem_of_filter. by apply Hfresh.
Qed.

Lemma probe_of_candidates_exhausted_witness :
  result (firstReachableImage (λ _, false)
            (imageCandidates "jane" None None "/roster" None None) 4)
  = Fulfilled DEFAULT_IMG.
Proof.
  destruct (probe_of_candidates_exhausted (λ _, false) "jane" None None "/roster"
              None None 4) as (u & _ & Hr & Hu).
  - vm_compute. lia.
  - repeat constructor.
  - rewrite Hr. f_equal. apply Hu.
    + discriminate.
    + vm_compute. intros Hin.
      repeat (apply elem_of_cons in Hin as [Hin|Hin]; [discriminate Hin|]).
      by apply elem_of_nil in Hin.
Defined.

(** ** firstReachableImage: the requests *)

Lemma requests_probe_history (reachable : string → bool) (urls : list string) :
  requests (probe_history reachable urls) = take (requested reachable urls) urls
  ∧ requested reachable urls ≤ length urls.
Proof.
  unfold requests. induction urls as [|u urls [IH Hle]]; [done|].
  cbn [probe_history requested]. destruct (reachable u).
  - split; [done|cbn; lia].
  - cbn [mbind list_bind app take length]. split; [by f_equal|lia].
Qed.

(** X13. The URLs requested are the first candidates of the list, each
    requested once and in list order: never more requests than
    candidates, and no candidate is skipped or asked again. *)
Theorem firstReachableImage_requests (reachable : string → bool)
    (urls : list string) (fuel : nat) :
  length urls ≤ fuel →
  let σ := firstReachableImage reachable urls fuel in
  requests (history σ) = take (index σ) urls
  ∧ requests (history σ) `prefix_of` urls
  ∧ index σ ≤ length urls
  ∧ (Forall (λ u, reachable u = false) urls → requests (history σ) = urls).
Proof.
  intros Hfuel σ.
  destruct (firstReachableImage_run reachable urls fuel Hfuel) as (_ & Hi & Hh & _).
  fold σ in Hi, Hh. rewrite Hh, Hi.
  destruct (requests_probe_history reachable urls) as [Hreq Hle].
  rewrite Hreq. split_and!; [done|apply prefix_take|done|].
  intros Hall. apply firstn_all2.
  clear -Hall. induction Hall as [|u urls Hu _ IH]; cbn; [lia|]. rewrite Hu. lia.
Qed.

Lemma firstReachableImage_requests_witness :
  requests (history (firstReachableImage (λ url, bool_decide (url = "b.jpg"))
                       ["a.jpg"; "b.jpg"; "a.jpg"] 3))
  `prefix_of` ["a.jpg"; "b.jpg"; "a.jpg"].
Proof.
  apply (firstReachableImage_requests (λ url, bool_decide (url = "b.jpg"))
           ["a.jpg"; "b.jpg"; "a.jpg"] 3).
  cbn. lia.
Defined.

(** ** fetchYAML: what the caller receives *)

(** X14. The value [fetchYAML] resolves with is always truthy (never
    [null], [undefined], [false], [0] or the empty string), so its
    properties can be read without a check; and a call writes at most one
    line to the console. *)
Theorem fetchYAML_truthy (env : environment) (path : string) (c : console) :
  ∃ v c', fetchYAML env path c = (Fulfilled v, c')
          ∧ ToBoolean v = true
          ∧ (c' = c ∨ ∃ e, c' = c ++ [("Error fetching YAML:", e)]).
Proof.
  rewrite fetchYAML_eval. cbn zeta.
  destruct (fetch env path) as [e|r]; [by eauto 10|].
  destruct (ok r); [|by eauto 10].
  destruct (body r) as [e|text]; [by eauto 10|].
  destruct (jsyaml_load env text) as [e|doc]; [by eauto 10|].
  exists (js_or doc empty_object), c. split_and!; [done| |by left].
  unfold js_or. by destruct (ToBoolean doc) eqn:Hd.
Qed.

(** ** renderContactInfo *)

Lemma renderContactInfo_items (B : builtins) (person : contact) (t : string)
    (a : gmap string string) (old : list node) :
  renderContactInfo B (Some person) (Element t a old)
  = (inr (), Element t a (ElementNode <$> contact_items B person)).
Proof.
  unfold renderContactInfo, contact_items. cbn [clear_innerHTML].
  destruct (ToBoolean (email person)), (ToBoolean (phone person)),
    (ToBoolean (js_or (lanl person) (lanl_profile person))),
    (ToBoolean (scholar person)), (ToBoolean (ads person)); reflexivity.
Qed.

(** X15. Rendering replaces whatever the list held: the items depend on
    the person only, the list element keeps its tag and attributes, and
    rendering the same person again changes nothing. *)
Theorem renderContactInfo_replaces (B : builtins) (person : contact)
    (listElement other : element) :
  let rendered := (renderContactInfo B (Some person) listElement).2 in
  (renderContactInfo B (Some person) listElement).1 = inr ()
  ∧ tag_of rendered = tag_of listElement
  ∧ attrs_of rendered = attrs_of listElement
  ∧ children_of rendered
    = children_of (renderContactInfo B (Some person) other).2
  ∧ renderContactInfo B (Some person) rendered = (inr (), rendered).
Proof.
  destruct listElement as [t a old], other as [t' a' old']. cbn zeta.
  rewrite !renderContactInfo_items. cbn [fst snd tag_of attrs_of children_of].
  by rewrite renderContactInfo_items.
Qed.

(** X16. The list gets one item for each of email, phone, LANL profile
    (under either of its two names), Google Scholar and NASA ADS that the
    person has, in that order, so at most five; a person with none of them
    gets an empty list. *)
Theorem renderContactInfo_count (B : builtins) (person : contact)
    (listElement : element) :
  let shown := [email person; phone person;
                js_or (lanl person) (lanl_profile person);
                scholar person; ads person] in
  children_of (renderContactInfo B (Some person) listElement).2
  = ElementNode <$> contact_items B person
  ∧ length (children_of (renderContactInfo B (Some person) listElement).2)
    = length (filter (λ v, ToBoolean v) shown)
  ∧ length (children_of (renderContactInfo B (Some person) listElement).2) ≤ 5
  ∧ (Forall (λ v, ToBoolean v = false) shown →
     children_of (renderContactInfo B (Some person) listElement).2 = []).
Proof.
  destruct listElement as [t a old]. rewrite renderContactInfo_items.
  cbn [snd children_of]. split; [done|]. rewrite length_fmap. unfold contact_items.
  destruct (ToBoolean (email person)) eqn:H1, (ToBoolean (phone person)) eqn:H2,
    (ToBoolean (js_or (lanl person) (lanl_profile person))) eqn:H3,
    (ToBoolean (scholar person)) eqn:H4, (ToBoolean (ads person)) eqn:H5;
    cbn [app length fmap list_fmap];
    (split_and!;
     [ rewrite ?filter_cons, ?filter_nil, ?H1, ?H2, ?H3, ?H4, ?H5; reflexivity
     | lia
     | intros Hall; repeat (apply Forall_cons in Hall as [? Hall]); congruence ]).
Qed.

Lemma renderContactInfo_count_witness :
  children_of
    (renderContactInfo ascii_builtins
       (Some {| email := VUndefined; phone := VStr ""; lanl := VNull;
                lanl_profile := VUndefined; scholar := VUndefined; ads := VNull |})
       (Element "ul" ∅ [TextNode "loading"])).2 = [].
Proof.
  apply (renderContactInfo_count ascii_builtins
           {| email := VUndefined; phone := VStr ""; lanl := VNull;
              lanl_profile := VUndefined; scholar := VUndefined; ads := VNull |}
           (Element "ul" ∅ [TextNode "loading"])).
  repeat constructor.
Defined.

Lemma createExternalLink_safe (B : builtins) (href text : value) :
  safe_link (createExternalLink B href text).
Proof.
  unfold safe_link, createExternalLink, createElement, set_textContent, setAttribute.
  cbn [tag_of attrs_of]. split_and!; [done| | | |].
  - rewrite lookup_insert_ne, lookup_insert_ne, lookup_insert_ne by done.
    rewrite lookup_insert_eq. by eexists.
  - rewrite lookup_insert_ne, lookup_insert_ne by done. by rewrite lookup_insert_eq.
  - rewrite lookup_insert_ne by done. by rewrite lookup_insert_eq.
  - exists (ToString B text). by rewrite lookup_insert_eq.
Qed.

Lemma link_item_contact_item (B : builtins) (href text : value) :
  contact_item (ElementNode (link_item B href text)).
Proof.
  eexists. split; [reflexivity|]. left. eexists. split; [done|].
  apply createExternalLink_safe.
Qed.

(** X17. Every link made by [createExternalLink] opens in a new tab with
    [rel="noopener noreferrer"] and an aria-label that says so; and every
    item of a rendered contact list is a plain [li] that holds one such
    link, or text only (the phone number). *)
Theorem renderContactInfo_safe_links (B : builtins) :
  (∀ href text, safe_link (createExternalLink B href text))
  ∧ (∀ person listElement,
       Forall contact_item
              (children_of (renderContactInfo B (Some person) listElement).2)).
Proof.
  split; [apply createExternalLink_safe|].
  intros person [t a old]. rewrite renderContactInfo_items. cbn [snd children_of].
  unfold contact_items. rewrite !fmap_app, !Forall_app. split_and!.
  - destruct (ToBoolean (email person)); repeat constructor.
    apply link_item_contact_item.
  - destruct (ToBoolean (phone person)); repeat constructor.
    eexists. split; [reflexivity|]. right.
    destruct (JS.truthy _); repeat constructor. by eexists.
  - destruct (ToBoolean (js_or _ _)); repeat constructor.
    apply link_item_contact_item.
  - destruct (ToBoolean (scholar person)); repeat constructor.
    apply link_item_contact_item.
  - destruct (ToBoolean (ads person)); repeat constructor.
    apply link_item_contact_item.
Qed.

(** X18. For a person with an email address and nothing else, the list
    holds exactly one item: a link to [mailto:] followed by the address,
    with the address as its text. *)
Theorem renderContactInfo_email_only (B : builtins) (address : string)
    (listElement : element) :
  address ≠ "" →
  let person := {| email := VStr address; phone := VUndefined; lanl := VUndefined;
                   lanl_profile := VUndefined; scholar := VUndefined;
                   ads := VUndefined |} in
  ∃ a, children_of (renderContactInfo B (Some person) listElement).2
       = [ElementNode (Element "li" ∅ [ElementNode a])]
       ∧ safe_link a
       ∧ attrs_of a !! "href" = Some ("mailto:" +:+ address)
       ∧ children_of a = [TextNode address].
Proof.
  intros Hne person. destruct listElement as [t a old].
  rewrite renderContactInfo_items. cbn [snd children_of].
  apply JSFacts.truthy_true in Hne.
  unfold contact_items, person. cbn [email phone lanl lanl_profile scholar ads
    ToBoolean js_or app]. rewrite Hne. cbn [app fmap list_fmap].
  eexists. split; [reflexivity|]. split; [apply createExternalLink_safe|].
  cbn [attrs_of children_of createExternalLink set_textContent setAttribute
       createElement ToString].
  rewrite Hne. split; [|done].
  rewrite lookup_insert_ne, lookup_insert_ne, lookup_insert_ne by done.
  by rewrite lookup_insert_eq.
Qed.

Lemma renderContactInfo_email_only_witness :
  ∃ a, children_of
         (renderContactInfo ascii_builtins
            (Some {| email := VStr "jane@lanl.gov"; phone := VUndefined;
                     lanl := VUndefined; lanl_profile := VUndefined;
                     scholar := VUndefined; ads := VUndefined |})
            (Element "ul" ∅ [])).2
       = [ElementNode (Element "li" ∅ [ElementNode a])]
       ∧ safe_link a
       ∧ attrs_of a !! "href" = Some ("mailto:" +:+ "jane@lanl.gov")
       ∧ children_of a = [TextNode "jane@lanl.gov"].
Proof.
  apply (renderContactInfo_email_only ascii_builtins "jane@lanl.gov"
           (Element "ul" ∅ [])).
  discriminate.
Defined.

(** X19. The LANL profile link is shown once.  When the person has a
    [lanl] field, [lanl_profile] is ignored; when it has none, the link
    is the one [lanl_profile] would give as [lanl]. *)
Theorem renderContactInfo_lanl (B : builtins) (person : contact)
    (listElement : element) :
  let with_fields l lp :=
    {| email := email person; phone := phone person; lanl := l;
       lanl_profile := lp; scholar := scholar person; ads := ads person |} in
  (ToBoolean (lanl person) = true →
   ∀ other, renderContactInfo B (Some (with_fields (lanl person) other)) listElement
            = renderContactInfo B (Some person) listElement)
  ∧ (ToBoolean (lanl person) = false →
     renderContactInfo B (Some (with_fields (lanl_profile person) VUndefined)) listElement
     = renderContactInfo B (Some person) listElement).
Proof.
  intros with_fields. destruct listElement as [t a old], person as [e ph l lp sc ad].
  subst with_fields. cbn [email phone lanl lanl_profile scholar ads].
  split; intros Hl.
  - intros other. rewrite !renderContactInfo_items. unfold contact_items, js_or.
    cbn [email phone lanl lanl_profile scholar ads]. by rewrite Hl.
  - rewrite !renderContactInfo_items. unfold contact_items, js_or.
    cbn [email phone lanl lanl_profile scholar ads]. rewrite Hl.
    destruct (ToBoolean lp) eqn:Hlp; cbn [ToBoolean]; by rewrite ?Hlp.
Qed.

Lemma renderContactInfo_lanl_witness :
  renderContactInfo ascii_builtins
    (Some {| email := VUndefined; phone := VUndefined; lanl := VStr "https://a";
             lanl_profile := VStr "https://b"; scholar := VUndefined;
             ads := VUndefined |}) (Element "ul" ∅ [])
  = renderContactInfo ascii_builtins
      (Some {| email := VUndefined; phone := VUndefined; lanl := VStr "https://a";
               lanl_profile := VUndefined; scholar := VUndefined;
               ads := VUndefined |}) (Element "ul" ∅ []).
Proof.
  apply (renderContactInfo_lanl ascii_builtins
           {| email := VUndefined; phone := VUndefined; lanl := VStr "https://a";
              lanl_profile := VUndefined; scholar := VUndefined;
              ads := VUndefined |} (Element "ul" ∅ [])).
  reflexivity.
Defined.

(** ** loadPartial *)

Lemma loadPartial_eval {D E} (env : environment) (doc : dom D E)
    (selector url : string) (pg : page D) :
  loadPartial env doc selector url pg
  = let failed e :=
      (Fulfilled (),
       {| page_console := page_console pg ++ [("Error loading partial:", e)];
          page_document := page_document pg |}) in
    match fetch env url with
    | inl e => failed e
    | inr r =>
        if ok r then
          match body r with
          | inl e => failed e
          | inr html =>
              match querySelector doc (page_document pg) selector with
              | inl e => failed e
              | inr (Some el) =>
                  (Fulfilled (),
                   {| page_console := page_console pg;
                      page_document :=
                        set_innerHTML doc el html (page_document pg) |})
              | inr None => (Fulfilled (), pg)
              end
          end
        else failed ("Failed to load " +:+ url +:+ ": " +:+ statusText r)
    end.
Proof.
  unfold loadPartial, dm_async, loadPartial_body, dm_try_catch, mbind, DM_bind,
    dm_settle, dm_throw, mret, DM_ret, dm_console_error, dm_set_innerHTML,
    dm_querySelector.
  destruct (fetch env url) as [e|r]; [done|].
  destruct (ok r); [|done]. cbn [negb].
  destruct (body r) as [e|html]; [done|].
  by destruct (querySelector doc (page_document pg) selector) as [e|[el|]].
Qed.

Lemma partial_outcome {D E} (env : environment) (doc : dom D E)
    (selector url : string) (d : D) :
  (∃ e, partial_failure env doc selector url d e)
  ∨ (∃ html target, partial_arrives env doc selector url d html target).
Proof.
  destruct (fetch env url) as [e|r] eqn:H1; [left; eauto using @partial_failure|].
  destruct (ok r) eqn:H2; [|left; eauto using @partial_failure].
  destruct (body r) as [e|html] eqn:H3; [left; eauto using @partial_failure|].
  destruct (querySelector doc d selector) as [e|target] eqn:H4;
    [left; eauto using @partial_failure|].
  right. exists html, target, r. done.
Qed.

(** X21. The promise returned by [loadPartial] is always fulfilled.  When
    the request is rejected, the response is not ok, the body cannot be
    read or the selector cannot be parsed, the error is written to the
    console and the document is left as it was; without such a failure
    nothing is written to the console. *)
Theorem loadPartial_failure {D E} (env : environment) (doc : dom D E)
    (selector url : string) (pg : page D) :
  (loadPartial env doc selector url pg).1 = Fulfilled ()
  ∧ (∀ e, partial_failure env doc selector url (page_document pg) e →
          (loadPartial env doc selector url pg).2
          = {| page_console := page_console pg ++ [("Error loading partial:", e)];
               page_document := page_document pg |})
  ∧ ((∃ e, partial_failure env doc selector url (page_document pg) e)
     ∨ page_console (loadPartial env doc selector url pg).2 = page_console pg).
Proof.
  rewrite loadPartial_eval. cbn zeta. split_and!.
  - destruct (fetch env url) as [e|r]; [done|]. destruct (ok r); [|done].
    destruct (body r) as [e|html]; [done|].
    by destruct (querySelector doc (page_document pg) selector) as [e|[el|]].
  - intros e [e' H1|r H1 H2|r e' H1 H2 H3|r html e' H1 H2 H3 H4];
      by rewrite H1, ?H2, ?H3, ?H4.
  - destruct (partial_outcome env doc selector url (page_document pg))
      as [?|(html & target & r & H1 & H2 & H3 & H4)]; [by left|].
    right. rewrite H1, H2, H3, H4. by destruct target.
Qed.

Lemma loadPartial_failure_witness :
  (loadPartial {| fetch := λ _, inr {| ok := false; statusText := "Not Found";
                                       body := inr "" |};
                  jsyaml_load := λ _, inr VNull |}
               flat_document "#header" "/partials/header.html"
               {| page_console := []; page_document := {[0 := "<p>old</p>"]} |}).2
  = {| page_console := [("Error loading partial:",
                         "Failed to load /partials/header.html: Not Found")];
       page_document := {[0 := "<p>old</p>"]} |}.
Proof.
  match goal with
  | |- (loadPartial ?env ?doc ?sel ?url ?pg).2 = _ =>
      rewrite (proj1 (proj2 (loadPartial_failure env doc sel url pg)) _
                 (partial_not_ok env doc sel url _ _ eq_refl eq_refl))
  end.
  reflexivity.
Defined.
